(** * Texture fills in paper.js: image cache, loader and fit geometry

    A shallow embedding of the texture-fill code of
    - [src/text/TextItem.js]   ([ImageCache], [TextItem.setTextureFill]),
    - [src/text/PointText.js]  ([PointText._draw]),
    - [examples/Text/TextureFill.html] (the [CompoundPath] source embedded
      there: [setFillImage], [_draw]; and the older [PointText._draw]).

    JavaScript numbers are modelled as exact rationals ([Q]): every
    arithmetic operation of the source is the corresponding exact operation,
    [Math.ceil] and [Math.round] are [Qceiling] and "floor of x + 1/2".
    Division by zero, which yields Infinity or NaN in JavaScript, is 0 in
    [Q]: the model is exact where the divisors are not zero, that is for
    bitmaps of non-zero width and height (every other divisor of the code
    is a non-zero constant or at least 5).
    The [Map] of the cache is a [gmap] keyed by URL, the recency array a
    list of URLs, oldest first. *)

From Stdlib Require Import QArith Qround Qminmax Lqa.
From stdpp Require Import gmap strings list fin_maps.

(** ** Images *)

(** An [Image] object of the host.  [img_serial] stands for the identity of
    the object ([new self.Image()] yields a fresh one each time), [img_src]
    for its [src], [img_width]/[img_height] for its decoded pixel size. *)
Record Image := mkImage {
  img_serial : nat;
  img_src : string;
  img_width : Q;
  img_height : Q
}.

(** ** ImageCache ([src/text/TextItem.js], lines 14-47) *)

Module ImageCache.

(** The value stored by [set]: [{ image: image, timestamp: Date.now() }]. *)
Record Entry := mkEntry { image : Image; timestamp : Z }.

Record t := mk {
  _cache : gmap string Entry;
  _order : list string
}.

Definition _maxSize : nat := 10.

(** The singleton as the object literal creates it. *)
Definition empty : t := {| _cache := ∅; _order := [] |}.

(** [Array.prototype.indexOf]: position of the first occurrence. *)
Fixpoint indexOf (l : list string) (url : string) : option nat :=
  match l with
  | [] => None
  | x :: l' => if String.eqb x url then Some 0%nat
               else option_map S (indexOf l' url)
  end.

(** [this._order.splice(index, 1)]. *)
Fixpoint splice1 (l : list string) (index : nat) : list string :=
  match l, index with
  | [], _ => []
  | _ :: l', O => l'
  | x :: l', S i => x :: splice1 l' i
  end.

(** [get]: the looked-up image ([None] for [null]) and the cache after. *)
Definition get (url : string) (c : t) : option Image * t :=
  match _cache c !! url with
  | Some cachedEntry =>
      let order1 := match indexOf (_order c) url with
                    | Some index => splice1 (_order c) index
                    | None => _order c
                    end in
      (Some (image cachedEntry),
       {| _cache := _cache c; _order := order1 ++ [url] |})
  | None => (None, c)
  end.

(** The [while] loop of [set]: shifts the oldest URL off [_order] and
    deletes it from the map while [_order.length >= _maxSize].  Returns
    the URLs evicted, in eviction order, and the cache after the loop.
    [_maxSize] is 10, so the loop stops on a list of 9 and never meets
    the empty array. *)
Fixpoint evict (order : list string) (cache : gmap string Entry)
  : list string * t :=
  match order with
  | oldest :: rest =>
      if (_maxSize <=? length order)%nat then
        let '(ev, c) := evict rest (delete oldest cache) in (oldest :: ev, c)
      else ([], {| _cache := cache; _order := order |})
  | [] => ([], {| _cache := cache; _order := [] |})
  end.

(** [set], with [now] the value of [Date.now()]. *)
Definition set (url : string) (img : Image) (now : Z) (c : t) : t :=
  let c1 := (evict (_order c) (_cache c)).2 in
  {| _cache := <[url := mkEntry img now]> (_cache c1);
     _order := _order c1 ++ [url] |}.

(** The URLs a call of [set] on [c] evicts, oldest first. *)
Definition evicted (c : t) : list string := (evict (_order c) (_cache c)).1.

Definition has (url : string) (c : t) : bool :=
  bool_decide (is_Some (_cache c !! url)).

(** [this._cache.size]. *)
Definition size (c : t) : nat := base.size (_cache c).

End ImageCache.

(** ** Numbers of the drawing code *)

Local Open Scope Q_scope.

Definition Qltb (a b : Q) : bool := negb (Qle_bool b a).

(** [Math.ceil], [Math.round] (round half up) and [Math.max]. *)
Definition Math_ceil (x : Q) : Q := inject_Z (Qceiling x).
Definition Math_round (x : Q) : Q := inject_Z (Qfloor (x + (1 # 2))).
Definition Math_max (a b : Q) : Q := if Qle_bool a b then b else a.

(** [Math.PI]: the double nearest to pi, exactly 884279719003555 / 2^48. *)
Definition Math_PI : Q := 884279719003555 # 281474976710656.

(** ** Texture settings

    The object assigned to [_fillImageSettings] / [_textureOptions].  A key
    tested with [hasOwnProperty] is an [option]; a key tested for
    truthiness is a [bool]. *)
Record Settings := mkSettings {
  scaling : option Q;
  scalingX : option Q;
  scalingY : option Q;
  syncRatio : bool;
  offsetLeft : option Q;
  offsetTop : option Q;
  leftPosition : option Q;
  topPosition : option Q;
  horizontalFlip : bool;
  verticalFlip : bool;
  rotation : option Q;
  textWidth : option Q;
  textHeight : option Q
}.

(** The four locals of the fit: [leftImage], [topImage], [widthImage],
    [heightImage]. *)
Record Fit := mkFit {
  leftImage : Q;
  topImage : Q;
  widthImage : Q;
  heightImage : Q
}.

(** The test [widthImage > 0 && heightImage > 0]. *)
Definition positive_fit (f : Fit) : bool :=
  Qltb 0 (widthImage f) && Qltb 0 (heightImage f).

(** ** Canvas operations

    A draw is modelled by the sequence of canvas and [CanvasProvider] calls
    it makes.  [Main] is the [ctx] passed to [_draw], [Off i] the [newCtx]
    of the [i]-th offscreen canvas the draw obtained. *)
Inductive Target := Main | Off (i : nat).

Inductive Shadow := SavedShadow | TransparentShadow | NullShadow.

Inductive Composite := SourceAtop | SourceIn | SourceOver.

Inductive CanvasOp :=
| getContext (i : nat) (w h : Q)       (* CanvasProvider.getContext(w, h) *)
| release (i : nat)                    (* CanvasProvider.release(newCtx) *)
| debugAppend (i : nat)                (* document.body.append(newCtx.canvas) ... *)
| setStyles (c : Target)               (* this._setStyles(c, param, viewMatrix) *)
| shadowColor (c : Target) (v : Shadow)
| font (c : Target)
| textAlign (c : Target)
| fillText (c : Target) (line : string)
| strokeText (c : Target) (line : string)
| beginPath (c : Target)
| drawChild (c : Target) (k : nat)     (* children[k].draw(c, param, strokeMatrix) *)
| fill (c : Target)
| stroke (c : Target)
| translate (c : Target) (x y : Q)
| scale (c : Target) (sx sy : Q)
| rotate (c : Target) (radiants : Q)
| globalCompositeOperation (c : Target) (mode : Composite)
| drawImage (c : Target) (img : Image) (x y w h : Q)   (* the texture bitmap *)
| drawCanvas (c : Target) (i : nat) (x y : Q).         (* drawImage(newCtx.canvas, x, y) *)

(** The flips and the rotation, as both [_draw] methods emit them on [c]:
    [PointText.js] lines 253-267, [CompoundPath] lines 623-636. *)
Definition flip_rotate_ops (c : Target) (st : Settings) (f : Fit)
  : list CanvasOp :=
  (if horizontalFlip st
   then [translate c (widthImage f) 0; scale c (-1) 1] else []) ++
  (if verticalFlip st
   then [translate c 0 (heightImage f); scale c 1 (-1)] else []) ++
  match rotation st with
  | Some rot =>
      let radiants := (rot * Math_PI) / 180 in
      [translate c (widthImage f / 2) (heightImage f / 2);
       rotate c radiants;
       translate c (- widthImage f / 2) (- heightImage f / 2)]
  | None => []
  end.

(** [newCtx.translate(leftImage, topImage)] and the guarded block after it. *)
Definition transform_ops (c : Target) (s : option Settings) (f : Fit)
  : list CanvasOp :=
  translate c (leftImage f) (topImage f) ::
  match s with
  | Some st => if positive_fit f then flip_rotate_ops c st f else []
  | None => []
  end.

(** The scaling step shared by both methods. *)
Definition scale_fit (st : Settings) (f : Fit) : Fit :=
  if syncRatio st then
    match scaling st with
    | Some k => mkFit (leftImage f) (topImage f)
                      (widthImage f * k) (heightImage f * k)
    | None => f
    end
  else
    let w := match scalingX st with
             | Some kx => widthImage f * kx | None => widthImage f end in
    let h := match scalingY st with
             | Some ky => heightImage f * ky | None => heightImage f end in
    mkFit (leftImage f) (topImage f) w h.

(** [leftImage += leftPosition], [topImage -= topPosition]. *)
Definition nudge_fit (st : Settings) (f : Fit) : Fit :=
  let l := match leftPosition st with
           | Some p => leftImage f + p | None => leftImage f end in
  let t := match topPosition st with
           | Some p => topImage f - p | None => topImage f end in
  mkFit l t (widthImage f) (heightImage f).

(** [leftImage = -offsetLeft], [topImage = -offsetTop]. *)
Definition offset_fit (st : Settings) (f : Fit) : Fit :=
  let l := match offsetLeft st with Some o => - o | None => leftImage f end in
  let t := match offsetTop st with Some o => - o | None => topImage f end in
  mkFit l t (widthImage f) (heightImage f).

(** [Rectangle], as far as the draws read it. *)
Module Rectangle.
Record t := mk { x : Q; y : Q; width : Q; height : Q }.
End Rectangle.

Inductive Justification := JLeft | JRight | JCenter.

Record Style := mkStyle {
  hasFill : bool;
  hasStroke : bool;
  leading : Q;
  justification : Justification
}.

(** [ctx.measureText(line)] as far as the draw reads it. *)
Record Metrics := mkMetrics { m_width : Q; actualBoundingBoxLeft : Q }.

Definition DEBUG : bool := false.

(** Offscreen canvases obtained and not given back, in order. *)
Fixpoint leaked_from (live : list nat) (ops : list CanvasOp) : list nat :=
  match ops with
  | [] => live
  | getContext i _ _ :: ops' => leaked_from (live ++ [i]) ops'
  | release i :: ops' =>
      leaked_from (filter (fun j => j <> i) live) ops'
  | _ :: ops' => leaked_from live ops'
  end.

Definition leaked (ops : list CanvasOp) : list nat := leaked_from [] ops.

Definition is_texture_draw (op : CanvasOp) : bool :=
  match op with drawImage _ _ _ _ _ _ => true | _ => false end.

Definition no_texture (op : CanvasOp) : bool := negb (is_texture_draw op).

Definition is_release (op : CanvasOp) : bool :=
  match op with release _ => true | _ => false end.

(** Calls that put pixels on the main canvas. *)
Definition paints_main (op : CanvasOp) : bool :=
  match op with
  | fillText Main _ | strokeText Main _ | fill Main | stroke Main
  | drawImage Main _ _ _ _ _ | drawCanvas Main _ _ _ => true
  | _ => false
  end.

Definition no_paint (op : CanvasOp) : bool := negb (paints_main op).

Definition sized_positive (op : CanvasOp) : bool :=
  match op with
  | getContext _ w h => Qltb 0 w && Qltb 0 h
  | _ => true
  end.

(** ** PointText._draw ([src/text/PointText.js], lines 79-307) *)

Module PointText.

Record t := mk {
  _content : string;
  _lines : list string;
  _style : Style;
  _fillImage : option Image;
  _fillImageSettings : option Settings
}.

(** What the view and the 2D context answer when the draw asks:
    [getView().getActualTextWidth(..)], [getView().getTextWidth(..)] and
    [ctx.measureText(line)]. *)
Record Host := mkHost {
  getActualTextWidth : Q;
  getTextWidth : Q;
  measureText : string -> Metrics
}.

(** [_getBounds(null, options)] (lines 309-328), [matrix] being null. *)
Definition _getBounds (that : t) (host : Host) (actualText : bool)
  : Rectangle.t :=
  let style := _style that in
  let numLines := length (_lines that) in
  let leading := leading style in
  let width := if actualText then getActualTextWidth host
               else getTextWidth host in
  let x := match justification style with
           | JLeft => 0
           | JCenter => 0 - width / 2
           | JRight => 0 - width / 1
           end in
  Rectangle.mk x
    (match numLines with O => 0 | _ => - (3 # 4) * leading end)
    width (inject_Z (Z.of_nat numLines) * leading).

(** Lines 190-203: the fit before any setting is read. *)
Definition baseline_fit (boundsWidth boundsHeight imageRatio : Q) : Fit :=
  let widthImage := boundsWidth in
  let heightImage := boundsWidth / imageRatio in
  if Qltb heightImage boundsHeight
  then mkFit 0 0 (boundsHeight * imageRatio) boundsHeight
  else mkFit 0 0 widthImage heightImage.

(** Lines 206-217: explicit extents. *)
Definition extent_fit (st : Settings) (imageRatio : Q) (f : Fit) : Fit :=
  let f1 := match textWidth st with
            | Some tw =>
                let w := Math_ceil tw in
                mkFit (leftImage f) (topImage f) w (Math_ceil (w / imageRatio))
            | None => f
            end in
  match textWidth st, textHeight st with
  | Some _, Some th =>
      if Qltb (heightImage f1) th
      then mkFit (leftImage f1) (topImage f1)
                 (Math_ceil (th * imageRatio)) (Math_ceil th)
      else f1
  | _, _ => f1
  end.

(** Lines 190-247. *)
Definition fit (s : option Settings) (boundsWidth boundsHeight imageRatio : Q)
  : Fit :=
  let f := baseline_fit boundsWidth boundsHeight imageRatio in
  match s with
  | Some st =>
      if positive_fit f
      then nudge_fit st (scale_fit st (offset_fit st (extent_fit st imageRatio f)))
      else f
  | None => f
  end.

(** Lines 271-302: the texture draw, the blit onto [ctx] and the release. *)
Definition draw_texture (i : nat) (img : Image) (f : Fit)
    (bounds : Rectangle.t) (metrics : Metrics) (align : Justification)
    (scaling : Q) : list CanvasOp :=
  if positive_fit f && Qltb 0 (Rectangle.height bounds) then
    let center := match align with JCenter => true | _ => false end in
    let halfWidth := m_width metrics / 2 in
    let boundingBoxLeft := if center then halfWidth else 0 in
    let imageLeftOffset :=
      if center then 0 else actualBoundingBoxLeft metrics in
    (if center then [translate (Off i) halfWidth 0] else []) ++
    [drawImage (Off i) img (- imageLeftOffset) 0 (widthImage f) (heightImage f);
     translate Main (- boundingBoxLeft) (- Rectangle.height bounds);
     scale Main (1 / scaling) (1 / scaling);
     drawCanvas Main i 0 0;
     scale Main scaling scaling;
     translate Main 0 (Rectangle.height bounds)] ++
    (if DEBUG then [debugAppend i; release i] else []) ++
    [release i]
  else [].

(** One iteration of the loop over the lines (lines 93-305); [i] is the
    index of the line.  The [continue] of line 170 also skips the
    [ctx.translate(0, leading)] that ends the iteration. *)
Definition draw_line (that : t) (host : Host) (i : nat) (line : string)
  : list CanvasOp :=
  let style := _style that in
  shadowColor Main SavedShadow ::
  match _fillImage that with
  | None =>
      (if hasFill style
       then [fillText Main line; shadowColor Main TransparentShadow] else []) ++
      (if hasStroke style then [strokeText Main line] else []) ++
      [translate Main 0 (leading style)]
  | Some img =>
      let metrics := measureText host line in
      let bounds := _getBounds that host true in
      let scaling := Math_ceil (Math_max 5 (Rectangle.width bounds / 50)) in
      let extraSpaceWidth := 10 * scaling in
      let canvasWidth :=
        Math_round (Rectangle.width bounds * scaling + extraSpaceWidth) in
      let canvasHeight :=
        Math_round (Rectangle.height bounds * scaling * (3 # 2)) in
      if Qle_bool canvasWidth 0 || Qle_bool canvasHeight 0 then []
      else
        let imageRatio := img_width img / img_height img in
        let f := fit (_fillImageSettings that) (Rectangle.width bounds)
                     (Rectangle.height bounds) imageRatio in
        [getContext i canvasWidth canvasHeight;
         setStyles (Off i);
         shadowColor (Off i) TransparentShadow;
         scale (Off i) scaling scaling;
         translate (Off i) 0 (Rectangle.height bounds);
         font (Off i)] ++
        (if hasFill style then [fillText (Off i) line] else []) ++
        [translate (Off i) (Rectangle.x bounds) (Rectangle.y bounds);
         globalCompositeOperation (Off i) SourceAtop] ++
        transform_ops (Off i) (_fillImageSettings that) f ++
        draw_texture i img f bounds metrics (justification style) scaling ++
        [translate Main 0 (leading style)]
  end.

(** The loop of line 92, from index [i] on. *)
Fixpoint draw_lines (that : t) (host : Host) (i : nat) (lines : list string)
  : list CanvasOp :=
  match lines with
  | [] => []
  | line :: rest => draw_line that host i line ++ draw_lines that host (S i) rest
  end.

Definition _draw (that : t) (host : Host) : list CanvasOp :=
  if String.eqb (_content that) EmptyString then []
  else [setStyles Main; font Main; textAlign Main] ++
       draw_lines that host 0 (_lines that).

End PointText.

(** ** The older PointText._draw kept in [examples/Text/TextureFill.html]
    (lines 858-910): its fit. *)

Module ExamplePointText.

Definition baseline_fit (boundsWidth boundsHeight imageRatio : Q) : Fit :=
  if Qltb boundsWidth boundsHeight
  then mkFit 0 0 (boundsHeight * imageRatio) boundsHeight
  else mkFit 0 0 boundsWidth (boundsWidth / imageRatio).

Definition extent_fit (st : Settings) (imageRatio : Q) (f : Fit) : Fit :=
  let f1 := match textWidth st with
            | Some tw => mkFit (leftImage f) (topImage f) tw (tw / imageRatio)
            | None => f
            end in
  match textWidth st, textHeight st with
  | Some tw, Some th =>
      if Qltb tw th
      then mkFit (leftImage f1) (topImage f1) (th * imageRatio) th
      else f1
  | _, _ => f1
  end.

Definition fit (s : option Settings) (boundsWidth boundsHeight imageRatio : Q)
  : Fit :=
  let f := baseline_fit boundsWidth boundsHeight imageRatio in
  match s with
  | Some st =>
      if positive_fit f
      then nudge_fit st (scale_fit st (offset_fit st (extent_fit st imageRatio f)))
      else f
  | None => f
  end.

End ExamplePointText.

(** ** Loading a texture

    What a setter does besides updating its item is recorded in an
    environment: the shared [ImageCache], the handlers registered with
    [DomEvent.add] (each a closure over its [url] and [image]) and the log
    of the calls made. *)

Module Change.
Inductive t := STYLE | CONTENT.
End Change.

Inductive Effect :=
| changed (flags : Change.t)          (* this._changed(flags) *)
| emitted (type : string)             (* that.emit(type, new Event(event)) *)
| requested (url : string).           (* image.src = url: the host starts loading *)

Record Handler := mkHandler { h_url : string; h_image : Image }.

Record Env := mkEnv {
  cache : ImageCache.t;
  handlers : list Handler;
  log : list Effect
}.

Definition initial_env : Env := mkEnv ImageCache.empty [] [].

Definition tell (ev : Effect) (e : Env) : Env :=
  mkEnv (cache e) (handlers e) (log e ++ [ev]).

(** A URL argument: [None] is null/undefined.  The truthy ones are the
    non-empty strings. *)
Definition truthy (url : option string) : option string :=
  match url with
  | Some EmptyString => None
  | other => other
  end.

(** The local function [emit] of both setters, [type] being
    [event && event.type || 'load'], [view] whether [getView()] is non-null
    and [responds] the item's [responds].  The assignment
    [paper = view._scope] that precedes the emission is not recorded. *)
Definition emit (view : bool) (responds : string -> bool) (type : string)
    (e : Env) : Env :=
  if view && responds type then tell (emitted type) e else e.

(** The object [new self.Image()] returns, after [image.src = url]. *)
Definition with_src (url : string) (image : Image) : Image :=
  mkImage (img_serial image) url (img_width image) (img_height image).

Definition load_type : string := "load".
Definition error_type : string := "error".

(** ** TextItem.setTextureFill ([src/text/TextItem.js], lines 151-204) *)

Module TextItem.

Record t := mk {
  _textureFill : option Image;
  _textureFillUrl : option string;
  _loaded : bool;
  _textureOptions : option Settings;
  view : bool;
  responds : string -> bool
}.

(** The fields as [initialize] sets them. *)
Definition initialize (view : bool) (responds : string -> bool) : t :=
  mk None None false None view responds.

Definition bind (img : option Image) (that : t) : t :=
  mk img (_textureFillUrl that) true (_textureOptions that)
     (view that) (responds that).

Definition set_url (url : option string) (that : t) : t :=
  mk (_textureFill that) url (_loaded that) (_textureOptions that)
     (view that) (responds that).

Definition set_loaded (b : bool) (that : t) : t :=
  mk (_textureFill that) (_textureFillUrl that) b (_textureOptions that)
     (view that) (responds that).

(** [setTextureFill(url)].  [image0] is the object [new self.Image()]
    returns and [complete] the value of [image.complete] read on line
    187; neither is looked at unless the cache misses. *)
Definition setTextureFill (url : option string) (image0 : Image)
    (complete : bool) (s : t * Env) : t * Env :=
  let '(that, e) := s in
  let '(that, e) :=
    match truthy url, _textureFill that with
    | None, Some _ => (bind None that, tell (changed Change.STYLE) e)
    | _, _ => (that, e)
    end in
  let that := set_url url that in
  match truthy url with
  | None => (that, e)
  | Some u =>
      let '(cachedImage, c) := ImageCache.get u (cache e) in
      let e := mkEnv c (handlers e) (log e) in
      match cachedImage with
      | Some img =>
          let that := bind (Some img) that in
          let e := tell (changed Change.STYLE) e in
          (that, emit (view that) (responds that) load_type e)
      | None =>
          let image := with_src u image0 in
          let e := tell (requested u) e in
          let that := set_loaded complete that in
          let e := mkEnv (cache e) (handlers e ++ [mkHandler u image]) (log e) in
          (that, tell (changed Change.STYLE) e)
      end
  end.

(** The [load] listener of line 191, run at time [now]. *)
Definition on_load (h : Handler) (now : Z) (s : t * Env) : t * Env :=
  let '(that, e) := s in
  let that := bind (Some (h_image h)) that in
  let e := mkEnv (ImageCache.set (h_url h) (h_image h) now (cache e))
                 (handlers e) (log e) in
  let e := tell (changed Change.STYLE) e in
  (that, emit (view that) (responds that) load_type e).

(** The [error] listener of line 199: [emit] itself. *)
Definition on_error (h : Handler) (s : t * Env) : t * Env :=
  let '(that, e) := s in
  (that, emit (view that) (responds that) error_type e).

End TextItem.

(** ** CompoundPath ([examples/Text/TextureFill.html], lines 152-666) *)

Module CompoundPath.

Record t := mk {
  children : nat;                  (* _children.length *)
  _style : Style;
  bounds : Rectangle.t;            (* this.bounds *)
  center : Q * Q;                  (* bounds.center.x, bounds.center.y *)
  _fillImage : option Image;
  _loaded : bool;
  _fillImageSettings : option Settings;
  view : bool;
  responds : string -> bool
}.

Definition bind (img : option Image) (that : t) : t :=
  mk (children that) (_style that) (bounds that) (center that)
     img true (_fillImageSettings that) (view that) (responds that).

Definition set_loaded (b : bool) (that : t) : t :=
  mk (children that) (_style that) (bounds that) (center that)
     (_fillImage that) b (_fillImageSettings that) (view that) (responds that).

(** [setFillImage(url)], lines 251-302. *)
Definition setFillImage (url : option string) (image0 : Image)
    (complete : bool) (s : t * Env) : t * Env :=
  let '(that, e) := s in
  let '(that, e) :=
    match truthy url, _fillImage that with
    | None, Some _ => (bind None that, tell (changed Change.STYLE) e)
    | _, _ => (that, e)
    end in
  match truthy url with
  | None => (that, e)
  | Some u =>
      let '(cachedImage, c) := ImageCache.get u (cache e) in
      let e := mkEnv c (handlers e) (log e) in
      match cachedImage with
      | Some img =>
          let that := bind (Some img) that in
          let e := tell (changed Change.STYLE) e in
          (that, emit (view that) (responds that) load_type e)
      | None =>
          let image := with_src u image0 in
          let e := tell (requested u) e in
          let that := set_loaded complete that in
          let e := mkEnv (cache e) (handlers e ++ [mkHandler u image]) (log e) in
          (that, tell (changed Change.STYLE) e)
      end
  end.

(** The [load] listener of line 289. *)
Definition on_load (h : Handler) (now : Z) (s : t * Env) : t * Env :=
  let '(that, e) := s in
  let that := bind (Some (h_image h)) that in
  let e := mkEnv (ImageCache.set (h_url h) (h_image h) now (cache e))
                 (handlers e) (log e) in
  let e := tell (changed Change.STYLE) e in
  (that, emit (view that) (responds that) load_type e).

Definition on_error (h : Handler) (s : t * Env) : t * Env :=
  let '(that, e) := s in
  (that, emit (view that) (responds that) error_type e).

(** Lines 587-595. *)
Definition baseline_fit (boundsWidth boundsHeight imageRatio : Q) : Fit :=
  if Qltb boundsWidth boundsHeight
  then mkFit 0 0 (boundsHeight * imageRatio) boundsHeight
  else mkFit 0 0 boundsWidth (boundsWidth / imageRatio).

(** Lines 587-617. *)
Definition fit (s : option Settings) (boundsWidth boundsHeight imageRatio : Q)
  : Fit :=
  let f := baseline_fit boundsWidth boundsHeight imageRatio in
  match s with
  | Some st => if positive_fit f then nudge_fit st (scale_fit st f) else f
  | None => f
  end.

(** [let myTest = () => { return false; }]. *)
Definition myTest : bool := false.

(** Lines 527-536: the test [canvasWidth <= 0 || canvasHeight <= 0] on the
    rounded sizes. *)
Definition too_small (bounds : Rectangle.t) : bool :=
  let boundsWidth := Rectangle.width bounds in
  let scaling := Math_max 5 (boundsWidth / 50) in
  let canvasWidth := Math_round (boundsWidth * scaling) in
  let canvasHeight := Math_round (Rectangle.height bounds * scaling * (3 # 2)) in
  Qle_bool canvasWidth 0 || Qle_bool canvasHeight 0.

(** [_draw(ctx, param, viewMatrix, strokeMatrix)], lines 503-651;
    [clip] is [param.clip]. *)
Definition _draw (that : t) (clip : bool) : list CanvasOp :=
  let style := _style that in
  let paths c := map (drawChild c) (seq 0 (children that)) in
  match children that with
  | O => []
  | _ =>
    beginPath Main :: paths Main ++
    (if negb clip && negb (bool_decide (is_Some (_fillImage that))) then
       setStyles Main ::
       (if hasFill style then [fill Main; shadowColor Main TransparentShadow]
        else []) ++
       (if hasStroke style then [stroke Main] else [])
     else []) ++
    match _fillImage that with
    | None => []
    | Some img =>
      let bounds := bounds that in
      let boundsWidth := Rectangle.width bounds in
      if too_small bounds then []
      else
        let canvasWidth := Rectangle.width bounds + 100 in
        let canvasHeight := Rectangle.height bounds + 100 in
        let DEBUG := myTest in
        let positionX := canvasWidth / 2 - (center that).1 in
        let positionY := canvasHeight / 2 - (center that).2 in
        let imageRatio := img_width img / img_height img in
        let imagePositionX := - Rectangle.width bounds / 2 + (center that).1 in
        let imagePositionY := - Rectangle.height bounds / 2 + (center that).2 in
        let f := fit (_fillImageSettings that) boundsWidth
                     (Rectangle.height bounds) imageRatio in
        [getContext 0 canvasWidth canvasHeight; setStyles (Off 0)] ++
        (if DEBUG then [debugAppend 0; release 0] else []) ++
        [shadowColor (Off 0) NullShadow; font (Off 0);
         translate (Off 0) positionX positionY] ++
        paths (Off 0) ++
        (if hasFill style
         then [fill (Off 0); shadowColor (Off 0) TransparentShadow] else []) ++
        [globalCompositeOperation (Off 0) SourceIn;
         translate (Off 0) imagePositionX imagePositionY] ++
        transform_ops (Off 0) (_fillImageSettings that) f ++
        (if positive_fit f && Qltb 0 (Rectangle.height bounds)
         then [drawImage (Off 0) img 0 0 (widthImage f) (heightImage f)]
         else []) ++
        [globalCompositeOperation (Off 0) SourceOver] ++
        (if hasStroke style then [stroke (Off 0)] else []) ++
        [drawCanvas Main 0 (- positionX) (- positionY)]
    end
  end.

End CompoundPath.

(** ** Sequences of cache operations *)

Inductive CacheOp :=
| opGet (url : string)
| opSet (url : string) (img : Image) (now : Z)
| opHas (url : string).

Definition apply_op (c : ImageCache.t) (op : CacheOp) : ImageCache.t :=
  match op with
  | opGet url => (ImageCache.get url c).2
  | opSet url img now => ImageCache.set url img now c
  | opHas url => c
  end.

Definition run_ops (ops : list CacheOp) : ImageCache.t :=
  fold_left apply_op ops ImageCache.empty.

(** [set] called for each URL in turn ([img u] and [now u] being the image
    and the clock of the call for [u]): the URLs each call evicted, and the
    cache at the end. *)
Fixpoint set_each (img : string -> Image) (now : string -> Z)
    (urls : list string) (c : ImageCache.t)
  : list (list string) * ImageCache.t :=
  match urls with
  | [] => ([], c)
  | u :: urls' =>
      let '(evs, c') :=
        set_each img now urls' (ImageCache.set u (img u) (now u) c) in
      (ImageCache.evicted c :: evs, c')
  end.

(** The recency array and the map agree: no URL twice in [_order], and the
    URLs of [_order] are the keys of [_cache]. *)
Definition cache_wf (c : ImageCache.t) : Prop :=
  NoDup (ImageCache._order c) /\
  forall u, is_Some (ImageCache._cache c !! u) <-> u ∈ ImageCache._order c.

(** What every reachable cache satisfies, duplicates in [_order] included. *)
Definition cache_inv (c : ImageCache.t) : Prop :=
  (forall u, is_Some (ImageCache._cache c !! u) -> u ∈ ImageCache._order c) /\
  (length (ImageCache._order c) <= ImageCache._maxSize)%nat.

(** ** The two items that load a texture *)

Inductive Texturable :=
| TextShape (that : TextItem.t)
| PathShape (that : CompoundPath.t).

(** The bitmap bound to the item, and its [loaded] flag. *)
Definition bound (it : Texturable) : option Image :=
  match it with
  | TextShape that => TextItem._textureFill that
  | PathShape that => CompoundPath._fillImage that
  end.

Definition loaded (it : Texturable) : bool :=
  match it with
  | TextShape that => TextItem._loaded that
  | PathShape that => CompoundPath._loaded that
  end.

(** What can happen to an item over time: a call of its setter, and the
    [load] or [error] event of the image of the [k]-th registered handler. *)
Inductive Event :=
| Request (url : option string) (image0 : Image) (complete : bool)
| Load (k : nat) (now : Z)
| Error (k : nat).

Definition request (url : option string) (image0 : Image) (complete : bool)
    (s : Texturable * Env) : Texturable * Env :=
  match s.1 with
  | TextShape that =>
      let r := TextItem.setTextureFill url image0 complete (that, s.2) in
      (TextShape r.1, r.2)
  | PathShape that =>
      let r := CompoundPath.setFillImage url image0 complete (that, s.2) in
      (PathShape r.1, r.2)
  end.

Definition on_load (h : Handler) (now : Z) (s : Texturable * Env)
  : Texturable * Env :=
  match s.1 with
  | TextShape that =>
      let r := TextItem.on_load h now (that, s.2) in (TextShape r.1, r.2)
  | PathShape that =>
      let r := CompoundPath.on_load h now (that, s.2) in (PathShape r.1, r.2)
  end.

Definition on_error (h : Handler) (s : Texturable * Env) : Texturable * Env :=
  match s.1 with
  | TextShape that =>
      let r := TextItem.on_error h (that, s.2) in (TextShape r.1, r.2)
  | PathShape that =>
      let r := CompoundPath.on_error h (that, s.2) in (PathShape r.1, r.2)
  end.

(** An event of an image no handler was registered for does nothing. *)
Definition step (s : Texturable * Env) (ev : Event) : Texturable * Env :=
  match ev with
  | Request url image0 complete => request url image0 complete s
  | Load k now =>
      match handlers s.2 !! k with
      | Some h => on_load h now s
      | None => s
      end
  | Error k =>
      match handlers s.2 !! k with
      | Some h => on_error h s
      | None => s
      end
  end.

Definition run (evs : list Event) (s : Texturable * Env) : Texturable * Env :=
  fold_left step evs s.

(** ** The two items that draw a texture *)

Inductive Adapter := Region | LineRun.

Definition adapter_fit (a : Adapter)
  : option Settings -> Q -> Q -> Q -> Fit :=
  match a with
  | Region => CompoundPath.fit
  | LineRun => PointText.fit
  end.

Inductive Drawable :=
| RegionShape (that : CompoundPath.t) (clip : bool)
| LineShape (that : PointText.t) (host : PointText.Host).

Definition draw (d : Drawable) : list CanvasOp :=
  match d with
  | RegionShape that clip => CompoundPath._draw that clip
  | LineShape that host => PointText._draw that host
  end.

Definition fill_image (d : Drawable) : option Image :=
  match d with
  | RegionShape that _ => CompoundPath._fillImage that
  | LineShape that _ => PointText._fillImage that
  end.

(** The silhouette bounding box the draw measures. *)
Definition box (d : Drawable) : Rectangle.t :=
  match d with
  | RegionShape that _ => CompoundPath.bounds that
  | LineShape that host => PointText._getBounds that host true
  end.

(** The fit the draw computes for the bitmap [img]. *)
Definition fitted (d : Drawable) (img : Image) : Fit :=
  let s := match d with
           | RegionShape that _ => CompoundPath._fillImageSettings that
           | LineShape that _ => PointText._fillImageSettings that
           end in
  adapter_fit (match d with RegionShape _ _ => Region | LineShape _ _ => LineRun end)
    s (Rectangle.width (box d)) (Rectangle.height (box d))
    (img_width img / img_height img).

Definition has_paint (d : Drawable) : bool :=
  match d with
  | RegionShape that _ =>
      hasFill (CompoundPath._style that) || hasStroke (CompoundPath._style that)
  | LineShape that _ =>
      hasFill (PointText._style that) || hasStroke (PointText._style that)
  end.

(** Something to draw at all: a child path, or a line of text. *)
Definition non_empty (d : Drawable) : bool :=
  match d with
  | RegionShape that _ => negb (CompoundPath.children that =? 0)%nat
  | LineShape that _ =>
      negb (String.eqb (PointText._content that) EmptyString) &&
      negb (length (PointText._lines that) =? 0)%nat
  end.

Definition degenerate (f : Fit) (boundsHeight : Q) : Prop :=
  widthImage f <= 0 \/ heightImage f <= 0 \/ boundsHeight <= 0.

(** Settings with "no explicit extents and scaling 1": no [textWidth], no
    [textHeight], and every scale factor that is read absent or 1. *)
Definition unit_factor (k : option Q) : bool :=
  match k with Some q => Qeq_bool q 1 | None => true end.

Definition plain_settings (s : option Settings) : bool :=
  match s with
  | None => true
  | Some st =>
      match textWidth st, textHeight st with None, None => true | _, _ => false end &&
      (if syncRatio st then unit_factor (scaling st)
       else unit_factor (scalingX st) && unit_factor (scalingY st))
  end.

(** ** The statements of the specification that are compared with the code *)

(** The transform sequence in the words of the specification:
    translate(offsetX, offsetY), then the horizontal flip, then the vertical
    flip, then the rotation by [rotation] degrees about the centre of the
    fitted box. *)
Definition spec_transform_ops (c : Target) (st : Settings)
    (offsetX offsetY drawW drawH : Q) : list CanvasOp :=
  [translate c offsetX offsetY] ++
  (if horizontalFlip st then [translate c drawW 0; scale c (-1) 1] else []) ++
  (if verticalFlip st then [translate c 0 drawH; scale c 1 (-1)] else []) ++
  match rotation st with
  | Some deg =>
      [translate c (drawW / 2) (drawH / 2);
       rotate c (deg * Math_PI / 180);
       translate c (- drawW / 2) (- drawH / 2)]
  | None => []
  end.

(** The accumulated offset: minus [offsetLeft] / [offsetTop] (which only the
    line-run adapter reads), then plus [leftPosition], minus [topPosition]. *)
Definition spec_offsetX (a : Adapter) (st : Settings) : Q :=
  let base := match a, offsetLeft st with
              | LineRun, Some o => - o
              | _, _ => 0
              end in
  match leftPosition st with Some p => base + p | None => base end.

Definition spec_offsetY (a : Adapter) (st : Settings) : Q :=
  let base := match a, offsetTop st with
              | LineRun, Some o => - o
              | _, _ => 0
              end in
  match topPosition st with Some p => base - p | None => base end.

(** "For every settings object the transform ops are applied in this fixed
    order", read as: the draw emits exactly that sequence. *)
Definition transform_order_for_every_settings : Prop :=
  forall (a : Adapter) (st : Settings) (W H r : Q) (c : Target),
    0 < W -> 0 < H -> 0 < r ->
    let f := adapter_fit a (Some st) W H r in
    transform_ops c (Some st) f =
    spec_transform_ops c st (spec_offsetX a st) (spec_offsetY a st)
                       (widthImage f) (heightImage f).

(** The explicit extents in the words of the specification. *)
Definition spec_extents (st : Settings) (r tw : Q) : Q * Q :=
  let drawW := tw in
  let drawH := drawW / r in
  match textHeight st with
  | Some th => if Qltb drawH th then (th * r, th) else (drawW, drawH)
  | None => (drawW, drawH)
  end.

Definition explicit_extents_as_given : Prop :=
  forall (st : Settings) (r tw : Q) (f : Fit),
    0 < r -> textWidth st = Some tw ->
    let g := PointText.extent_fit st r f in
    widthImage g == (spec_extents st r tw).1 /\
    heightImage g == (spec_extents st r tw).2.

(** The explicit extents as [PointText.js] computes them. *)
Definition ceil_extents (st : Settings) (r tw : Q) : Fit :=
  let w1 := Math_ceil tw in
  let h1 := Math_ceil (w1 / r) in
  match textHeight st with
  | Some th =>
      if Qltb h1 th then mkFit 0 0 (Math_ceil (th * r)) (Math_ceil th)
      else mkFit 0 0 w1 h1
  | None => mkFit 0 0 w1 h1
  end.

(** "A falsy url clears the resource, marks loaded, signals the style change
    and starts no load, whatever the prior state". *)
Definition falsy_url_settles_every_state : Prop :=
  forall (it : Texturable) (e : Env) (url : option string) (image0 : Image)
         (complete : bool),
    truthy url = None ->
    let r := request url image0 complete (it, e) in
    bound r.1 = None /\ loaded r.1 = true /\
    log r.2 = log e ++ [changed Change.STYLE] /\
    handlers r.2 = handlers e.

(** "A completion of a superseded request is not bound": A is requested,
    then B, on an item with nothing bound and an empty cache; whether A's
    load fires while B is pending or after B's, A's bitmap is not bound. *)
Definition stale_completion_discarded : Prop :=
  forall (it : Texturable) (a b : string) (imgA imgB : Image) (ca cb : bool)
         (nowA nowB : Z),
    bound it = None -> a <> b ->
    truthy (Some a) = Some a -> truthy (Some b) = Some b ->
    let s2 := run [Request (Some a) imgA ca; Request (Some b) imgB cb]
                  (it, initial_env) in
    bound (run [Load 0 nowA] s2).1 = None /\
    bound (run [Load 1 nowB; Load 0 nowA] s2).1 = Some (with_src b imgB).

(** "A degenerate fit skips the textured draw, allocates no zero-size
    canvas, and the shape still renders its flat fill and stroke". *)
Definition degenerate_keeps_flat_paint : Prop :=
  forall (d : Drawable) (img : Image),
    fill_image d = Some img -> non_empty d = true ->
    degenerate (fitted d img) (Rectangle.height (box d)) ->
    forallb no_texture (draw d) = true /\
    forallb sized_positive (draw d) = true /\
    (has_paint d = true -> existsb paints_main (draw d) = true).

(** "Whatever a draw acquires it releases", and "the fit covers the box". *)
Definition releases_all (d : Drawable) : Prop := leaked (draw d) = [].

Definition covers (f : Fit) (W H : Q) : Prop :=
  W <= widthImage f /\ H <= heightImage f.

(** ** Concrete items used in the examples below *)

(** A decoded 400 x 100 bitmap. *)
Definition wide_image : Image := mkImage 0 "a.png" 400 100.

(** [{ syncRatio: true, scaling: 0 }]. *)
Definition zero_scaling : Settings :=
  mkSettings (Some 0) None None true None None None None false false None None None.

(** A filled and stroked compound path of one child. *)
Definition region_of (b : Rectangle.t) (s : option Settings) : CompoundPath.t :=
  CompoundPath.mk 1 (mkStyle true true 12 JLeft) b
    (Rectangle.x b + Rectangle.width b / 2, Rectangle.y b + Rectangle.height b / 2)
    (Some wide_image) true s true (fun _ => true).

(** One line of filled text, 100 wide, leading 12. *)
Definition line_of (s : option Settings) : PointText.t :=
  PointText.mk "A" ["A"] (mkStyle true false 12 JLeft) (Some wide_image) s.

Definition plain_host : PointText.Host :=
  PointText.mkHost 100 100 (fun _ => mkMetrics 100 0).

(** [{ syncRatio: true, scaling: k, horizontalFlip: true }]. *)
Definition flipped (k : Q) : Settings :=
  mkSettings (Some k) None None true None None None None true false None None None.

(** [{ textWidth: tw }] and [{ textWidth: tw, textHeight: th }]. *)
Definition extents (tw : Q) (th : option Q) : Settings :=
  mkSettings None None None false None None None None false false None (Some tw) th.

(** A text item as [initialize] leaves it, attached to a view. *)
Definition fresh_text : Texturable :=
  TextShape (TextItem.initialize true (fun _ => true)).

(** Two objects as [new self.Image()] returns them. *)
Definition image_a : Image := mkImage 1 EmptyString 400 100.
Definition image_b : Image := mkImage 2 EmptyString 64 64.

(** Nineteen URLs. *)
Definition urls_1_9 : list string :=
  ["u1"; "u2"; "u3"; "u4"; "u5"; "u6"; "u7"; "u8"; "u9"]%string.
Definition urls_10_18 : list string :=
  ["u10"; "u11"; "u12"; "u13"; "u14"; "u15"; "u16"; "u17"; "u18"]%string.

Definition image_of (url : string) : Image := mkImage 0 url 64 64.

(** * More of the text and path items *)

(** ** TextItem: the content ([src/text/TextItem.js], lines 90-137, 215-217) *)

(** Carriage return (13) and line feed (10). *)
Definition CR : Ascii.ascii :=
  Ascii.Ascii true false true true false false false false.
Definition LF : Ascii.ascii :=
  Ascii.Ascii false true false true false false false false.

Definition is_break (a : Ascii.ascii) : bool := Ascii.eqb a CR || Ascii.eqb a LF.

(** [content.split(/\r\n|\n|\r/mg)]: a CR followed by LF is one break. *)
Fixpoint split_lines (s : string) : list string :=
  match s with
  | EmptyString => [EmptyString]
  | String a rest =>
      if Ascii.eqb a CR then
        match rest with
        | String b rest' =>
            if Ascii.eqb b LF then EmptyString :: split_lines rest'
            else EmptyString :: split_lines rest
        | EmptyString => EmptyString :: split_lines rest
        end
      else if Ascii.eqb a LF then EmptyString :: split_lines rest
      else match split_lines rest with
           | line :: lines => String a line :: lines
           | [] => [String a EmptyString]
           end
  end.

(** [lines.join('\n')]. *)
Definition join_lines (lines : list string) : string :=
  String.concat (String LF EmptyString) lines.

(** No CR and no LF in the string. *)
Fixpoint unbroken (s : string) : bool :=
  match s with
  | EmptyString => true
  | String a rest => negb (is_break a) && unbroken rest
  end.

Module TextItemContent.

Record t := mk { _content : string; _lines : list string }.

(** Lines 74-75 of [initialize]. *)
Definition initialize : t := mk EmptyString [].

(** [setContent(content)], [content] being a string already. *)
Definition setContent (content : string) (s : t * Env) : t * Env :=
  (mk content (split_lines content), tell (changed Change.CONTENT) s.2).

(** [!this._content]. *)
Definition isEmpty (that : t) : bool := String.eqb (_content that) EmptyString.

End TextItemContent.

(** [setContent] as [PointText] inherits it. *)
Definition PointText_setContent (content : string) (that : PointText.t)
  : PointText.t :=
  PointText.mk content (split_lines content) (PointText._style that)
    (PointText._fillImage that) (PointText._fillImageSettings that).

(** ** The getters of the texture ([TextItem.js] lines 147-149;
    [CompoundPath] lines 247-249) *)

(** [TextItem.getTextureFill]. *)
Definition getTextureFill (that : TextItem.t) : option string :=
  TextItem._textureFillUrl that.

(** [CompoundPath.getFillImage]: [this._fillImage ? this._fillImage.src : null]. *)
Definition getFillImage (that : CompoundPath.t) : option string :=
  match CompoundPath._fillImage that with
  | Some img => Some (img_src img)
  | None => None
  end.

(** What the getter of the item answers. *)
Definition reported_url (it : Texturable) : option string :=
  match it with
  | TextShape that => getTextureFill that
  | PathShape that => getFillImage that
  end.

(** Whether [getView()] is non-null, and [responds(type)]. *)
Definition attached (it : Texturable) : bool :=
  match it with
  | TextShape that => TextItem.view that
  | PathShape that => CompoundPath.view that
  end.

Definition responding (it : Texturable) (type : string) : bool :=
  match it with
  | TextShape that => TextItem.responds that type
  | PathShape that => CompoundPath.responds that type
  end.

(** What [emit(type)] adds to the log for the item. *)
Definition emission (it : Texturable) (type : string) : list Effect :=
  if attached it && responding it type then [emitted type] else [].

Definition is_emitted (ev : Effect) : bool :=
  match ev with emitted _ => true | _ => false end.

Definition is_requested (ev : Effect) : bool :=
  match ev with requested _ => true | _ => false end.

(** The URL of the last [Request] of the events, [url0] if there is none. *)
Definition last_requested (evs : list Event) (url0 : option string)
  : option string :=
  fold_left (fun url ev => match ev with Request u _ _ => u | _ => url end)
            evs url0.

Definition is_error (ev : Event) : bool :=
  match ev with Error _ => true | _ => false end.

(** ** Reading a sequence of canvas operations *)

(** The context an operation is called on. *)
Definition target_of (op : CanvasOp) : option Target :=
  match op with
  | getContext _ _ _ | release _ | debugAppend _ => None
  | setStyles c | shadowColor c _ | font c | textAlign c | fillText c _
  | strokeText c _ | beginPath c | drawChild c _ | fill c | stroke c
  | translate c _ _ | scale c _ _ | rotate c _
  | globalCompositeOperation c _ | drawImage c _ _ _ _ _
  | drawCanvas c _ _ _ => Some c
  end.

(** The offscreen canvas an operation draws on, reads or shows. *)
Definition canvas_used (op : CanvasOp) : option nat :=
  match op with
  | drawCanvas _ i _ _ | debugAppend i => Some i
  | _ => match target_of op with Some (Off i) => Some i | _ => None end
  end.

(** Operations that involve an offscreen canvas or [CanvasProvider]. *)
Definition offscreen_free (op : CanvasOp) : bool :=
  match op with
  | getContext _ _ _ | release _ => false
  | _ => match canvas_used op with Some _ => false | None => true end
  end.

Definition held (i : nat) (live : list nat) : bool := existsb (Nat.eqb i) live.

(** The discipline of [CanvasProvider]: a canvas is obtained before it is
    used, not obtained again while held, released only while held, and not
    used after its release.  [live] are the canvases held so far. *)
Fixpoint well_scoped (live : list nat) (ops : list CanvasOp) : bool :=
  match ops with
  | [] => true
  | getContext i _ _ :: ops' => negb (held i live) && well_scoped (i :: live) ops'
  | release i :: ops' =>
      held i live && well_scoped (filter (fun j => j <> i) live) ops'
  | op :: ops' =>
      match canvas_used op with Some i => held i live | None => true end &&
      well_scoped live ops'
  end.

Definition same_target (c c' : Target) : bool :=
  match c, c' with
  | Main, Main => true
  | Off i, Off j => Nat.eqb i j
  | _, _ => false
  end.

(** The lines filled on the context [c], in order. *)
Fixpoint filled_on (c : Target) (ops : list CanvasOp) : list string :=
  match ops with
  | [] => []
  | fillText c' line :: ops' =>
      if same_target c c' then line :: filled_on c ops' else filled_on c ops'
  | _ :: ops' => filled_on c ops'
  end.

Definition is_stroke_text (op : CanvasOp) : bool :=
  match op with strokeText _ _ => true | _ => false end.

Definition is_main_text (op : CanvasOp) : bool :=
  match op with fillText Main _ | strokeText Main _ => true | _ => false end.

(** The operations up to the first draw of the texture bitmap. *)
Fixpoint before_texture (ops : list CanvasOp) : list CanvasOp :=
  match ops with
  | [] => []
  | drawImage _ _ _ _ _ _ :: _ => []
  | op :: ops' => op :: before_texture ops'
  end.

(** ** What the transforms of a context do to a point

    [translate], [scale] and [rotate] multiply the current transform of the
    context on the right, so a point drawn after a sequence of them is
    mapped by the last one first.  [trig] gives the cosine and the sine of
    an angle in radians, as the host computes them. *)
Definition op_map (trig : Q -> Q * Q) (c : Target) (op : CanvasOp)
    (p : Q * Q) : Q * Q :=
  match op with
  | translate c' a b => if same_target c c' then (p.1 + a, p.2 + b) else p
  | scale c' sx sy => if same_target c c' then (p.1 * sx, p.2 * sy) else p
  | rotate c' radiants =>
      if same_target c c'
      then let '(co, si) := trig radiants in
           (co * p.1 - si * p.2, si * p.1 + co * p.2)
      else p
  | _ => p
  end.

(** Where a point drawn on [c] after [ops] lands, in the coordinates [c]
    had before them. *)
Definition place (trig : Q -> Q * Q) (c : Target) (ops : list CanvasOp)
    (p : Q * Q) : Q * Q :=
  fold_right (op_map trig c) p ops.

Definition same_point (p q : Q * Q) : Prop := p.1 == q.1 /\ p.2 == q.2.

(** The rounded size test of a line of [PointText._draw] (lines 163-171). *)
Definition line_too_small (bounds : Rectangle.t) : bool :=
  let scaling := Math_ceil (Math_max 5 (Rectangle.width bounds / 50)) in
  Qle_bool (Math_round (Rectangle.width bounds * scaling + 10 * scaling)) 0 ||
  Qle_bool (Math_round (Rectangle.height bounds * scaling * (3 # 2))) 0.

Definition is_text (it : Texturable) : bool :=
  match it with TextShape _ => true | PathShape _ => false end.


(** No CR in the string: its only line breaks are line feeds. *)
Fixpoint lf_only (s : string) : bool :=
  match s with
  | EmptyString => true
  | String a rest => negb (Ascii.eqb a CR) && lf_only rest
  end.

(** An operation that neither obtains nor releases a canvas and uses none
    but those of [live]. *)
Definition within (live : list nat) (op : CanvasOp) : bool :=
  match op with
  | getContext _ _ _ | release _ => false
  | _ => match canvas_used op with Some i => held i live | None => true end
  end.

Definition not_stroke_text (op : CanvasOp) : bool := negb (is_stroke_text op).
Definition not_main_text (op : CanvasOp) : bool := negb (is_main_text op).

(** The operations up to the first child path drawn on [c]. *)
Fixpoint before_children (c : Target) (ops : list CanvasOp) : list CanvasOp :=
  match ops with
  | [] => []
  | drawChild c' k :: ops' =>
      if same_target c c' then [] else drawChild c' k :: before_children c ops'
  | op :: ops' => op :: before_children c ops'
  end.

(** The point [p] moved [n] times by [(dx, dy)]. *)
Definition moved (n : nat) (dx dy : Q) (p : Q * Q) : Q * Q :=
  (p.1 + inject_Z (Z.of_nat n) * dx, p.2 + inject_Z (Z.of_nat n) * dy).

(** * Facts *)

(** ** The cache *)

Section cache_facts.
Import ImageCache.
Local Close Scope Q_scope.

(** [_order] with the first occurrence of [url] spliced out, as [get] does. *)
Lemma splice_indexOf_cons x l url :
  match indexOf (x :: l) url with
  | Some i => splice1 (x :: l) i
  | None => x :: l
  end =
  if String.eqb x url then l
  else x :: match indexOf l url with Some i => splice1 l i | None => l end.
Proof.
  simpl. destruct (String.eqb x url); [done|].
  by destruct (indexOf l url).
Qed.

Lemma splice_indexOf_elem l url u :
  u ≠ url ->
  u ∈ match indexOf l url with Some i => splice1 l i | None => l end <-> u ∈ l.
Proof.
  intros Hne. induction l as [|x l IH]; [done|].
  rewrite splice_indexOf_cons.
  destruct (String.eqb_spec x url) as [->|Hx].
  - rewrite elem_of_cons. split; [auto | by intros [?|?]].
  - rewrite !elem_of_cons, IH. done.
Qed.

Lemma splice_indexOf_length l url :
  url ∈ l ->
  S (length match indexOf l url with Some i => splice1 l i | None => l end)
  = length l.
Proof.
  induction l as [|x l IH]; intros Hin; [by apply elem_of_nil in Hin|].
  rewrite splice_indexOf_cons.
  destruct (String.eqb_spec x url) as [->|Hx]; [done|].
  apply elem_of_cons in Hin as [->|Hin]; [done|].
  simpl. by rewrite IH.
Qed.

Lemma splice_indexOf_NoDup l url :
  NoDup l ->
  NoDup match indexOf l url with Some i => splice1 l i | None => l end.
Proof.
  induction 1 as [|x l Hx Hl IH]; [constructor|].
  rewrite splice_indexOf_cons.
  destruct (String.eqb_spec x url) as [->|Hne]; [done|].
  constructor; [|done].
  rewrite splice_indexOf_elem by done. done.
Qed.

Lemma evict_cons o rest cache :
  evict (o :: rest) cache =
  if (_maxSize <=? length (o :: rest))%nat
  then (o :: (evict rest (delete o cache)).1, (evict rest (delete o cache)).2)
  else ([], mk cache (o :: rest)).
Proof.
  change (evict (o :: rest) cache) with
    (if (_maxSize <=? length (o :: rest))%nat
     then let '(ev, c) := evict rest (delete o cache) in (o :: ev, c)
     else ([], mk cache (o :: rest))).
  by destruct (evict rest (delete o cache)).
Qed.

Lemma splice_indexOf_gone l url :
  NoDup l ->
  url ∉ match indexOf l url with Some i => splice1 l i | None => l end.
Proof.
  induction 1 as [|x l Hx Hl IH]; [apply not_elem_of_nil|].
  rewrite splice_indexOf_cons.
  destruct (String.eqb_spec x url) as [->|Hne]; [done|].
  by apply not_elem_of_cons.
Qed.

(** The loop of [set] leaves fewer than [_maxSize] URLs in [_order]. *)
Lemma evict_length order cache :
  (length (_order (evict order cache).2) < _maxSize)%nat.
Proof.
  revert cache. induction order as [|o rest IH]; intros cache.
  - simpl. unfold _maxSize. lia.
  - rewrite evict_cons.
    destruct (_maxSize <=? length (o :: rest))%nat eqn:E; [apply IH|].
    by apply Nat.leb_gt in E.
Qed.

Lemma evict_keeps_keys order cache :
  (forall u, is_Some (cache !! u) -> u ∈ order) ->
  forall u, is_Some (_cache (evict order cache).2 !! u) ->
            u ∈ _order (evict order cache).2.
Proof.
  revert cache. induction order as [|o rest IH]; intros cache Hk u.
  - apply Hk.
  - rewrite evict_cons.
    destruct (_maxSize <=? length (o :: rest))%nat eqn:E; [|apply Hk].
    apply IH. intros v Hv.
    destruct (decide (o = v)) as [->|Hne].
    + rewrite lookup_delete_eq in Hv. by destruct Hv.
    + rewrite lookup_delete_ne in Hv by done.
      apply Hk in Hv. apply elem_of_cons in Hv as [->|Hv]; done.
Qed.

Lemma cache_inv_empty : cache_inv empty.
Proof.
  split; simpl.
  - intros u. rewrite lookup_empty. by intros [? ?].
  - unfold _maxSize. lia.
Qed.

Lemma cache_inv_set url img now c : cache_inv c -> cache_inv (set url img now c).
Proof.
  intros [Hk Hl]. unfold set. split; simpl.
  - intros u Hu. apply elem_of_app.
    destruct (decide (url = u)) as [->|Hne].
    + right. by apply list_elem_of_singleton.
    + left. rewrite lookup_insert_ne in Hu by done.
      by apply evict_keeps_keys.
  - rewrite length_app. simpl.
    pose proof (evict_length (_order c) (_cache c)). lia.
Qed.

Lemma cache_inv_get url c : cache_inv c -> cache_inv (get url c).2.
Proof.
  intros [Hk Hl]. unfold get.
  destruct (_cache c !! url) as [entry|] eqn:E; [|by split].
  assert (Hin : url ∈ _order c) by (apply Hk; rewrite E; eauto).
  split; simpl.
  - intros u Hu. apply Hk in Hu. apply elem_of_app.
    destruct (decide (u = url)) as [->|Hne].
    + right. by apply list_elem_of_singleton.
    + left. by apply splice_indexOf_elem.
  - rewrite length_app. simpl.
    pose proof (splice_indexOf_length _ _ Hin). lia.
Qed.

Lemma cache_inv_run ops : cache_inv (run_ops ops).
Proof.
  unfold run_ops. generalize cache_inv_empty. generalize empty.
  induction ops as [|op ops IH]; intros c Hc; [done|].
  simpl. apply IH. destruct op; simpl; auto using cache_inv_set, cache_inv_get.
Qed.

Lemma cache_inv_size c : cache_inv c -> (size c <= _maxSize)%nat.
Proof.
  intros [Hk Hl]. unfold size.
  rewrite <- length_map_to_list, <- (length_fmap fst).
  etrans; [|exact Hl].
  apply submseteq_length, NoDup_submseteq.
  - apply NoDup_fst_map_to_list.
  - intros u [[u' e] [-> Hu]]%list_elem_of_fmap.
    apply Hk. apply elem_of_map_to_list in Hu. simpl. rewrite Hu. eauto.
Qed.

(** C4: after every finite sequence of [get], [set] and [has] calls from
    the empty cache, the map holds at most one entry per URL (the keys of
    its entries are pairwise distinct) and never more than 10 entries:
    [set] shifts [_order] below capacity before it inserts, and every key
    of the map occurs in [_order]. *)
Theorem cache_size_bounded (ops : list CacheOp) :
  NoDup (map_to_list (_cache (run_ops ops))).*1 /\
  (size (run_ops ops) <= 10)%nat.
Proof.
  split.
  - apply NoDup_fst_map_to_list.
  - apply (cache_inv_size _ (cache_inv_run ops)).
Qed.

(** C10: for a URL that is not resident, [get] returns null and leaves the
    cache as it was, map and recency order alike. *)
Theorem get_miss_unchanged (url : string) (c : t) :
  _cache c !! url = None -> get url c = (None, c).
Proof. intros H. unfold get. by rewrite H. Qed.

Lemma get_miss_unchanged_witness :
  get "a.png" empty = (None, empty).
Proof. apply get_miss_unchanged. reflexivity. Defined.

Lemma evict_short order cache :
  (length order < _maxSize)%nat -> evict order cache = ([], mk cache order).
Proof.
  intros Hl. destruct order as [|o rest]; [done|].
  rewrite evict_cons. by apply Nat.leb_gt in Hl as ->.
Qed.

Lemma evict_full o rest cache :
  length rest = 9%nat ->
  evict (o :: rest) cache = ([o], mk (delete o cache) rest).
Proof.
  intros Hl. rewrite evict_cons, evict_short by (unfold _maxSize; lia).
  simpl length. by rewrite Hl.
Qed.

Lemma cache_wf_empty : cache_wf empty.
Proof.
  split; simpl; [constructor|].
  intros u. rewrite lookup_empty, elem_of_nil. split; [by intros [? ?]|done].
Qed.

Lemma cache_wf_has u c : cache_wf c -> (has u c = true <-> u ∈ _order c).
Proof.
  intros [_ Hk]. unfold has. rewrite bool_decide_eq_true. apply Hk.
Qed.

Lemma cache_wf_size c : cache_wf c -> size c = length (_order c).
Proof.
  intros [Hnd Hk]. unfold size.
  rewrite <- length_map_to_list, <- (length_fmap fst).
  apply Permutation_length, NoDup_Permutation; [apply NoDup_fst_map_to_list|done|].
  intros u. rewrite <- Hk. split.
  - intros [[u' e] [-> Hu]]%list_elem_of_fmap.
    apply elem_of_map_to_list in Hu. simpl. rewrite Hu. eauto.
  - intros [e He]. apply list_elem_of_fmap. exists (u, e).
    split; [done|]. by apply elem_of_map_to_list.
Qed.

(** [set] of a URL that is not resident, below capacity: nothing evicted. *)
Lemma set_fresh_short u img now c :
  cache_wf c -> u ∉ _order c -> (length (_order c) < _maxSize)%nat ->
  evicted c = [] /\
  set u img now c = mk (<[u := mkEntry img now]> (_cache c)) (_order c ++ [u]) /\
  cache_wf (set u img now c).
Proof.
  intros [Hnd Hk] Hu Hl. unfold evicted, set.
  rewrite evict_short by done. simpl.
  split; [done|]. split; [done|].
  split; simpl.
  - apply NoDup_app. split; [done|]. split; [|apply NoDup_singleton].
    intros v Hv ->%list_elem_of_singleton. done.
  - intros v. rewrite elem_of_app, list_elem_of_singleton, <- Hk.
    destruct (decide (u = v)) as [->|Hne].
    + rewrite lookup_insert_eq. split; eauto.
    + rewrite lookup_insert_ne by done. split; [by left|]. by intros [?|?].
Qed.

(** [set] of a URL that is not resident, at capacity: the oldest goes. *)
Lemma set_fresh_full u img now c o rest :
  cache_wf c -> _order c = o :: rest -> length rest = 9%nat -> u ∉ o :: rest ->
  evicted c = [o] /\
  _order (set u img now c) = rest ++ [u] /\
  cache_wf (set u img now c).
Proof.
  intros [Hnd Hk] Ho Hl Hu. unfold evicted, set.
  rewrite Ho, evict_full by done. simpl.
  split; [done|]. split; [done|].
  rewrite Ho in Hnd, Hk. apply NoDup_cons in Hnd as [Ho' Hnd].
  apply not_elem_of_cons in Hu as [Hne Hu].
  split; simpl.
  - apply NoDup_app. split; [done|]. split; [|apply NoDup_singleton].
    intros v Hv ->%list_elem_of_singleton. done.
  - intros v. rewrite elem_of_app, list_elem_of_singleton.
    destruct (decide (u = v)) as [->|Hne'].
    + rewrite lookup_insert_eq. split; eauto.
    + rewrite lookup_insert_ne by done.
      destruct (decide (o = v)) as [->|Hne''].
      * rewrite lookup_delete_eq. split; [by intros [? ?]|]. by intros [?|?].
      * rewrite lookup_delete_ne, Hk, elem_of_cons by done.
        split; [intros [?|?]; [done|by left] | intros [?|?]; [by right|done]].
Qed.

(** [get] of a resident URL moves it to the recent end. *)
Lemma get_resident u e c :
  cache_wf c -> _cache c !! u = Some e ->
  (get u c).1 = Some (image e) /\
  _cache (get u c).2 = _cache c /\
  _order (get u c).2 =
    match indexOf (_order c) u with
    | Some i => splice1 (_order c) i | None => _order c end ++ [u] /\
  cache_wf (get u c).2.
Proof.
  intros [Hnd Hk] He. unfold get. rewrite He. simpl.
  split; [done|]. split; [done|]. split; [done|].
  split; simpl.
  - apply NoDup_app. split; [by apply splice_indexOf_NoDup|].
    split; [|apply NoDup_singleton].
    intros v Hv Hv'%list_elem_of_singleton. subst v.
    by apply (splice_indexOf_gone (_order c) u).
  - intros v. rewrite elem_of_app, list_elem_of_singleton, Hk.
    destruct (decide (v = u)) as [->|Hne].
    + split; [by right|]. intros _. apply Hk. rewrite He. eauto.
    + rewrite splice_indexOf_elem by done. split; [by left|]. by intros [?|?].
Qed.

Lemma set_each_cons img now u urls c :
  set_each img now (u :: urls) c =
  (evicted c :: (set_each img now urls (set u (img u) (now u) c)).1,
   (set_each img now urls (set u (img u) (now u) c)).2).
Proof. simpl. by destruct (set_each img now urls _). Qed.

Lemma set_each_fill img now urls c :
  cache_wf c -> NoDup urls -> (forall u, u ∈ urls -> u ∉ _order c) ->
  (length (_order c) + length urls <= _maxSize)%nat ->
  (set_each img now urls c).1 = replicate (length urls) [] /\
  _order (set_each img now urls c).2 = _order c ++ urls /\
  (forall v, v ∉ urls ->
     _cache (set_each img now urls c).2 !! v = _cache c !! v) /\
  cache_wf (set_each img now urls c).2.
Proof.
  revert c. induction urls as [|u urls IH]; intros c Hwf Hnd Hfresh Hl.
  - simpl. by rewrite app_nil_r.
  - apply NoDup_cons in Hnd as [Hu Hnd]. simpl in Hl.
    destruct (set_fresh_short u (img u) (now u) c) as (Hev & Hset & Hwf');
      [done | apply Hfresh; left | lia |].
    assert (Hord : _order (set u (img u) (now u) c) = _order c ++ [u])
      by by rewrite Hset.
    destruct (IH (set u (img u) (now u) c)) as (IH1 & IH2 & IH3 & IH4);
      [done | done | | rewrite Hord, length_app; simpl; lia |].
    { intros v Hv. rewrite Hord, elem_of_app, list_elem_of_singleton.
      intros [Hin| ->]; [|done]. apply (Hfresh v); [by right | done]. }
    rewrite set_each_cons. simpl.
    rewrite Hev, IH1, IH2, Hord, <- app_assoc.
    repeat split; try done; try apply IH4.
    intros v [Hne Hv]%not_elem_of_cons. rewrite IH3, Hset by done.
    simpl. by rewrite lookup_insert_ne.
Qed.

(** At capacity, each [set] of a new URL evicts exactly the oldest one. *)
Lemma set_each_evict img now urls old keep c :
  cache_wf c -> _order c = old ++ keep ->
  length (old ++ keep) = _maxSize -> length urls = length old ->
  NoDup urls -> (forall u, u ∈ urls -> u ∉ old ++ keep) ->
  (set_each img now urls c).1 = (fun u => [u]) <$> old /\
  _order (set_each img now urls c).2 = keep ++ urls /\
  cache_wf (set_each img now urls c).2.
Proof.
  revert old keep c.
  induction urls as [|u urls IH]; intros old keep c Hwf Ho Hl Hlen Hnd Hfresh.
  - destruct old; [|done]. simpl in *. by rewrite app_nil_r.
  - destruct old as [|o old]; [done|].
    apply NoDup_cons in Hnd as [Hu Hnd].
    simpl in Hl, Hlen. unfold _maxSize in Hl.
    destruct (set_fresh_full u (img u) (now u) c o (old ++ keep))
      as (Hev & Hord & Hwf'); [done | done | lia | apply Hfresh; left |].
    destruct (IH old (keep ++ [u]) (set u (img u) (now u) c))
      as (IH1 & IH2 & IH3); [done | by rewrite Hord, app_assoc | | lia | done | |].
    { rewrite app_assoc, length_app. simpl. unfold _maxSize. lia. }
    { intros v Hv. rewrite app_assoc, elem_of_app, list_elem_of_singleton.
      intros [Hin| ->]; [|done].
      apply (Hfresh v); [by right | by right]. }
    rewrite set_each_cons. simpl.
    by rewrite Hev, IH1, IH2, <- app_assoc.
Qed.

(** C3: capacity 10, empty cache.  Inserting the distinct URLs [u0] and
    [mid] = u1..u9 evicts nothing and fills the cache; [get u0] then finds
    its image; inserting [tl] = u10..u18 evicts exactly u1, ..., u9, in
    that order and one per insert; at the end [u0] and u10..u18 are
    resident and none of u1..u9 is. *)
Theorem lru_eviction_scenario (img : string -> Image) (now : string -> Z)
    (u0 : string) (mid tl : list string) :
  length mid = 9%nat -> length tl = 9%nat -> NoDup (u0 :: mid ++ tl) ->
  let filled := set_each img now (u0 :: mid) empty in
  let got := get u0 filled.2 in
  let final := set_each img now tl got.2 in
  filled.1 = replicate 10 [] /\ size filled.2 = 10%nat /\
  got.1 = Some (img u0) /\
  final.1 = (fun u => [u]) <$> mid /\
  has u0 final.2 = true /\
  (forall u, u ∈ mid -> has u final.2 = false) /\
  (forall u, u ∈ tl -> has u final.2 = true) /\
  size final.2 = 10%nat.
Proof.
  intros Hmid Htl Hnd filled got final.
  assert (Hnd' := Hnd).
  apply NoDup_cons in Hnd' as [Hu0 Hnd']. apply NoDup_app in Hnd' as (Hm & Hdisj & Ht).
  apply not_elem_of_app in Hu0 as [Hu0m Hu0t].
  destruct (set_each_fill img now (u0 :: mid) empty) as (F1 & F2 & F3 & F4).
  { apply cache_wf_empty. }
  { by constructor. }
  { intros u _. apply not_elem_of_nil. }
  { simpl. rewrite Hmid. unfold _maxSize. lia. }
  fold filled in F1, F2, F3, F4. simpl in F1, F2. rewrite Hmid in F1.
  assert (Hc0 : _cache filled.2 !! u0 = Some (mkEntry (img u0) (now u0))).
  { subst filled. rewrite set_each_cons. simpl.
    destruct (set_fresh_short u0 (img u0) (now u0) empty) as (_ & Hset & Hwf).
    { apply cache_wf_empty. } { apply not_elem_of_nil. } { simpl. unfold _maxSize. lia. }
    destruct (set_each_fill img now mid (set u0 (img u0) (now u0) empty))
      as (_ & _ & G3 & _); [done | done | | | ].
    { intros u Hu. rewrite Hset. simpl. rewrite list_elem_of_singleton.
      intros ->. done. }
    { rewrite Hset. simpl. rewrite Hmid. unfold _maxSize. lia. }
    rewrite G3, Hset by done. simpl. apply lookup_insert_eq. }
  destruct (get_resident u0 _ filled.2 F4 Hc0) as (G1 & G2 & G3 & G4).
  fold got in G1, G2, G3, G4. simpl in G1.
  rewrite F2 in G3. rewrite splice_indexOf_cons, String.eqb_refl in G3.
  destruct (set_each_evict img now tl mid [u0] got.2) as (E1 & E2 & E3).
  { done. } { done. }
  { rewrite length_app, Hmid. done. } { lia. } { done. }
  { intros u Hu. rewrite elem_of_app, list_elem_of_singleton.
    intros [Hin | ->]; [by apply (Hdisj u) | done]. }
  fold final in E1, E2, E3.
  split; [done|]. split; [by rewrite cache_wf_size, F2; simpl; rewrite ?Hmid|].
  split; [done|]. split; [done|].
  split; [apply cache_wf_has; [done|]; rewrite E2; by left|].
  split.
  { intros u Hu. apply not_true_is_false. rewrite cache_wf_has, E2 by done.
    intros [->|Hin]%elem_of_cons; [done | by apply (Hdisj u)]. }
  split.
  { intros u Hu. apply cache_wf_has; [done|]. rewrite E2. by right. }
  rewrite cache_wf_size, E2 by done. simpl. by rewrite Htl.
Qed.

Lemma lru_eviction_scenario_witness :
  (set_each image_of (fun _ => 0%Z) urls_10_18
     (get "u0"
        (set_each image_of (fun _ => 0%Z) ("u0"%string :: urls_1_9) empty).2).2).1
  = (fun u => [u]) <$> urls_1_9.
Proof.
  destruct (lru_eviction_scenario image_of (fun _ => 0%Z) "u0"
              urls_1_9 urls_10_18) as (_ & _ & _ & H & _).
  - reflexivity.
  - reflexivity.
  - apply (bool_decide_unpack _). vm_compute. exact I.
  - exact H.
Defined.

End cache_facts.

(** ** The fit *)

Lemma Qltb_lt a b : Qltb a b = true <-> a < b.
Proof.
  unfold Qltb. rewrite negb_true_iff. split.
  - intros H. apply Qnot_le_lt. intros Hle. apply Qle_bool_iff in Hle. congruence.
  - intros H. apply not_true_is_false. intros Hle%Qle_bool_iff.
    by apply Qlt_not_le in H.
Qed.

Lemma Qltb_ge a b : Qltb a b = false <-> b <= a.
Proof.
  unfold Qltb. rewrite negb_false_iff. apply Qle_bool_iff.
Qed.

Lemma positive_fit_iff f :
  positive_fit f = true <-> 0 < widthImage f /\ 0 < heightImage f.
Proof. unfold positive_fit. by rewrite andb_true_iff, !Qltb_lt. Qed.

Lemma Qdiv_pos a b : 0 < a -> 0 < b -> 0 < a / b.
Proof.
  intros Ha Hb. apply Qlt_shift_div_l; [done|]. by rewrite Qmult_0_l.
Qed.

Lemma Qdiv_lt_mult a b r : 0 < r -> a / r < b -> a < b * r.
Proof.
  intros Hr H. assert (Hd : a / r * r == a) by (field; lra).
  rewrite <- Hd. by apply Qmult_lt_r.
Qed.

(** The baseline of [PointText.js] covers the box. *)
Lemma point_text_baseline_covers W H r :
  0 < W -> 0 < H -> 0 < r -> covers (PointText.baseline_fit W H r) W H.
Proof.
  intros HW HH Hr. unfold PointText.baseline_fit, covers.
  destruct (Qltb (W / r) H) eqn:E; simpl.
  - apply Qltb_lt in E. split; [|apply Qle_refl].
    apply Qlt_le_weak. by apply Qdiv_lt_mult.
  - apply Qltb_ge in E. split; [apply Qle_refl | done].
Qed.

Lemma point_text_baseline_positive W H r :
  0 < W -> 0 < r -> positive_fit (PointText.baseline_fit W H r) = true.
Proof.
  intros HW Hr. apply positive_fit_iff. unfold PointText.baseline_fit.
  assert (0 < W / r) by by apply Qdiv_pos.
  destruct (Qltb (W / r) H) eqn:E; simpl; [|done].
  apply Qltb_lt in E. assert (0 < H) by lra. split; [|done].
  rewrite <- (Qmult_0_l r). by apply Qmult_lt_r.
Qed.

Lemma unit_factor_mult k q : unit_factor (Some k) = true -> q * k == q.
Proof. simpl. intros ->%Qeq_bool_iff. apply Qmult_1_r. Qed.

Lemma plain_scale_nudge st f :
  plain_settings (Some st) = true ->
  widthImage (nudge_fit st (scale_fit st f)) == widthImage f /\
  heightImage (nudge_fit st (scale_fit st f)) == heightImage f.
Proof.
  simpl. intros [_ Hs]%andb_true_iff. unfold nudge_fit, scale_fit. simpl.
  destruct (syncRatio st).
  - destruct (scaling st) as [k|]; simpl; [|done].
    split; by apply unit_factor_mult.
  - apply andb_true_iff in Hs as [Hx Hy]. split.
    + destruct (scalingX st); [by apply unit_factor_mult | done].
    + destruct (scalingY st); [by apply unit_factor_mult | done].
Qed.

(** The cover invariant holds in the line-run adapter of [PointText.js]. *)
Lemma point_text_fit_covers s W H r :
  0 < W -> 0 < H -> 0 < r -> plain_settings s = true ->
  covers (PointText.fit s W H r) W H.
Proof.
  intros HW HH Hr Hs. pose proof (point_text_baseline_covers W H r HW HH Hr) as [Hw Hh].
  unfold PointText.fit. destruct s as [st|]; [|done].
  rewrite point_text_baseline_positive by done.
  destruct (plain_scale_nudge st
    (offset_fit st (PointText.extent_fit st r (PointText.baseline_fit W H r))) Hs)
    as [Ew Eh].
  simpl in Hs. apply andb_true_iff in Hs as [Ht _].
  unfold covers. rewrite Ew, Eh. unfold PointText.extent_fit.
  destruct (textWidth st); [by destruct (textHeight st)|]. simpl. done.
Qed.

(** C1: the cover invariant fails in the region adapter.  For a 100 x 50
    box, a bitmap of ratio 4 and no settings, [CompoundPath._draw] keeps
    the width fit 100 x 25 (it refits only when the box is taller than
    wide), so the fitted height 25 is below the box height 50. *)
Theorem region_fit_letterboxes :
  plain_settings None = true /\
  CompoundPath.fit None 100 50 4 = mkFit 0 0 100 (100 / 4) /\
  heightImage (adapter_fit Region None 100 50 4) < 50 /\
  ~ covers (adapter_fit Region None 100 50 4) 100 50.
Proof.
  split; [done|]. split; [done|]. split; [done|].
  intros [_ H]. by apply H.
Qed.

(** The same on the other axis: a 50 x 100 box and a bitmap of ratio 1/10
    are fitted 10 wide. *)
Lemma region_fit_narrow :
  ~ covers (adapter_fit Region None 50 100 (1 # 10)) 50 100.
Proof. intros [H _]. by apply H. Qed.

(** ** Explicit extents *)

(** With [{ textWidth: 10.5 }] and a square bitmap the fitted width is 11,
    not 10.5. *)
Lemma explicit_extents_refuted :
  widthImage (PointText.extent_fit (extents (21 # 2) None) 1 (mkFit 0 0 100 50))
    = 11 /\
  ~ explicit_extents_as_given.
Proof.
  split; [reflexivity|]. intros H.
  destruct (H (extents (21 # 2) None) 1 (21 # 2) (mkFit 0 0 100 50))
    as [Hw _]; [done | done |].
  vm_compute in Hw. discriminate.
Qed.

Lemma extent_fit_ceil st r tw f :
  textWidth st = Some tw -> leftImage f = 0 -> topImage f = 0 ->
  PointText.extent_fit st r f = ceil_extents st r tw.
Proof.
  intros Ht Hl Htop. unfold PointText.extent_fit, ceil_extents.
  rewrite Ht, Hl, Htop. simpl.
  destruct (textHeight st) as [th|]; [|done].
  by destruct (Qltb _ th).
Qed.

(** C6, as the code has it: on a box of positive width, when the settings
    give [textWidth] the fit starts from drawW = ceil(textWidth) and
    drawH = ceil(drawW / r), and when [textHeight] is given too and that
    drawH is below it, from drawH = ceil(textHeight) and
    drawW = ceil(textHeight * r); the baseline fit of the box plays no
    part, and offsets, scaling and position apply on top. *)
Theorem explicit_extents_rounded_up (st : Settings) (W H r tw : Q) :
  0 < W -> 0 < r -> textWidth st = Some tw ->
  PointText.fit (Some st) W H r =
  nudge_fit st (scale_fit st (offset_fit st (ceil_extents st r tw))).
Proof.
  intros HW Hr Ht. unfold PointText.fit.
  rewrite point_text_baseline_positive by done.
  rewrite (extent_fit_ceil st r tw); [done | done | |];
    unfold PointText.baseline_fit; by destruct (Qltb _ _).
Qed.

Lemma explicit_extents_rounded_up_witness :
  PointText.fit (Some (extents (21 # 2) (Some 30))) 100 50 2 =
  nudge_fit (extents (21 # 2) (Some 30))
    (scale_fit (extents (21 # 2) (Some 30))
       (offset_fit (extents (21 # 2) (Some 30))
          (ceil_extents (extents (21 # 2) (Some 30)) 2 (21 # 2)))).
Proof.
  apply (explicit_extents_rounded_up (extents (21 # 2) (Some 30)) 100 50 2 (21 # 2));
    reflexivity.
Defined.

(** The older copy in the example page keeps the extents as given and
    recomputes when [textHeight > textWidth]. *)
Lemma example_extent_fit st r tw f :
  textWidth st = Some tw ->
  widthImage (ExamplePointText.extent_fit st r f) =
    match textHeight st with
    | Some th => if Qltb tw th then th * r else tw
    | None => tw
    end /\
  heightImage (ExamplePointText.extent_fit st r f) =
    match textHeight st with
    | Some th => if Qltb tw th then th else tw / r
    | None => tw / r
    end.
Proof.
  intros Ht. unfold ExamplePointText.extent_fit. rewrite Ht.
  destruct (textHeight st) as [th|]; [|done].
  by destruct (Qltb tw th).
Qed.

(** ** The transform sequence *)

(** With [{ syncRatio: true, scaling: 0, horizontalFlip: true }] the fitted
    size is 0 x 0 and the flip is not applied: the draw only translates. *)
Lemma transform_order_refuted :
  transform_ops Main (Some (flipped 0))
    (adapter_fit LineRun (Some (flipped 0)) 100 50 2) = [translate Main 0 0] /\
  ~ transform_order_for_every_settings.
Proof.
  split; [reflexivity|]. intros H.
  assert (E := H LineRun (flipped 0) 100 50 2 Main eq_refl eq_refl eq_refl).
  discriminate E.
Qed.

Lemma scale_fit_offsets st f :
  leftImage (scale_fit st f) = leftImage f /\
  topImage (scale_fit st f) = topImage f.
Proof.
  unfold scale_fit. destruct (syncRatio st); [|done].
  by destruct (scaling st).
Qed.

Lemma baseline_offsets a W H r :
  match a with
  | Region => leftImage (CompoundPath.baseline_fit W H r) = 0 /\
              topImage (CompoundPath.baseline_fit W H r) = 0
  | LineRun => leftImage (PointText.baseline_fit W H r) = 0 /\
               topImage (PointText.baseline_fit W H r) = 0
  end.
Proof.
  destruct a; unfold CompoundPath.baseline_fit, PointText.baseline_fit;
    by destruct (Qltb _ _).
Qed.

Lemma extent_fit_offsets st r f :
  leftImage (PointText.extent_fit st r f) = leftImage f /\
  topImage (PointText.extent_fit st r f) = topImage f.
Proof.
  unfold PointText.extent_fit.
  destruct (textWidth st) as [tw|]; [|done].
  destruct (textHeight st) as [th|]; [|done].
  by destruct (Qltb _ th).
Qed.

(** A positive fit was computed with the settings read. *)
Lemma fitted_offsets a st W H r :
  positive_fit (adapter_fit a (Some st) W H r) = true ->
  leftImage (adapter_fit a (Some st) W H r) = spec_offsetX a st /\
  topImage (adapter_fit a (Some st) W H r) = spec_offsetY a st.
Proof.
  destruct a; simpl; unfold CompoundPath.fit, PointText.fit.
  - destruct (positive_fit (CompoundPath.baseline_fit W H r)) eqn:E;
      [intros _ | congruence].
    destruct (baseline_offsets Region W H r) as [Hl Ht].
    destruct (scale_fit_offsets st (CompoundPath.baseline_fit W H r)) as [Sl St].
    unfold nudge_fit, spec_offsetX, spec_offsetY. simpl.
    rewrite Sl, St, Hl, Ht. done.
  - destruct (positive_fit (PointText.baseline_fit W H r)) eqn:E;
      [intros _ | congruence].
    destruct (baseline_offsets LineRun W H r) as [Hl Ht].
    destruct (extent_fit_offsets st r (PointText.baseline_fit W H r)) as [El Et].
    destruct (scale_fit_offsets st
      (offset_fit st (PointText.extent_fit st r (PointText.baseline_fit W H r))))
      as [Sl St].
    unfold nudge_fit, spec_offsetX, spec_offsetY. simpl.
    rewrite Sl, St. unfold offset_fit. simpl. rewrite El, Et, Hl, Ht.
    by destruct (offsetLeft st), (offsetTop st).
Qed.

(** C7, as the code has it: for every settings object under which the
    fitted size is positive, both draws apply translate(offsetX, offsetY)
    with the accumulated offset (plus [leftPosition], minus [topPosition]),
    then the horizontal flip, then the vertical flip, then the rotation
    about the centre of the fitted box, in that order. *)
Theorem transform_order_when_positive (a : Adapter) (st : Settings)
    (W H r : Q) (c : Target) :
  positive_fit (adapter_fit a (Some st) W H r) = true ->
  transform_ops c (Some st) (adapter_fit a (Some st) W H r) =
  spec_transform_ops c st (spec_offsetX a st) (spec_offsetY a st)
    (widthImage (adapter_fit a (Some st) W H r))
    (heightImage (adapter_fit a (Some st) W H r)).
Proof.
  intros Hpos. destruct (fitted_offsets a st W H r Hpos) as [Hl Ht].
  unfold transform_ops, spec_transform_ops. rewrite Hpos, Hl, Ht.
  unfold flip_rotate_ops. simpl. done.
Qed.

Lemma transform_order_when_positive_witness :
  transform_ops Main (Some (flipped 2))
    (adapter_fit Region (Some (flipped 2)) 100 50 2) =
  spec_transform_ops Main (flipped 2)
    (spec_offsetX Region (flipped 2)) (spec_offsetY Region (flipped 2))
    (widthImage (adapter_fit Region (Some (flipped 2)) 100 50 2))
    (heightImage (adapter_fit Region (Some (flipped 2)) 100 50 2)).
Proof.
  apply (transform_order_when_positive Region (flipped 2) 100 50 2 Main).
  reflexivity.
Defined.

(** Otherwise only the offset translate is applied. *)
Lemma transform_ops_not_positive c s f :
  positive_fit f = false ->
  transform_ops c s f = [translate c (leftImage f) (topImage f)].
Proof. intros H. unfold transform_ops. rewrite H. by destruct s. Qed.

(** ** The draws *)

Lemma Math_round_nonpos x : x <= 0 -> Math_round x <= 0.
Proof.
  intros Hx. unfold Math_round.
  assert (H : (Qfloor (x + (1 # 2)) <= Qfloor (1 # 2))%Z)
    by (apply Qfloor_resp_le; lra).
  change (Qfloor (1 # 2)) with 0%Z in H.
  change 0 with (inject_Z 0). by rewrite <- Zle_Qle.
Qed.

Lemma Math_max_lower x : 5 <= Math_max 5 x.
Proof.
  unfold Math_max. destruct (Qle_bool 5 x) eqn:E; [|lra].
  by apply Qle_bool_iff.
Qed.

Lemma Math_ceil_lower x : 5 <= x -> 5 <= Math_ceil x.
Proof.
  intros Hx. unfold Math_ceil.
  assert (H : (Qceiling 5 <= Qceiling x)%Z) by by apply Qceiling_resp_le.
  change (Qceiling 5) with 5%Z in H.
  change 5 with (inject_Z 5). by rewrite <- Zle_Qle.
Qed.

(** The canvas-size check passes only on a box that is not empty. *)
Lemma round_check_width w s :
  0 < s -> Qle_bool (Math_round (w * s)) 0 = false -> 0 < w.
Proof.
  intros Hs Hc. apply Qnot_le_lt. intros Hw.
  assert (Qle_bool (Math_round (w * s)) 0 = true); [|congruence].
  apply Qle_bool_iff, Math_round_nonpos. nra.
Qed.

Lemma round_check_height h s :
  0 < s -> Qle_bool (Math_round (h * s * (3 # 2))) 0 = false -> 0 < h.
Proof.
  intros Hs Hc. apply Qnot_le_lt. intros Hh.
  assert (Qle_bool (Math_round (h * s * (3 # 2))) 0 = true); [|congruence].
  apply Qle_bool_iff, Math_round_nonpos. nra.
Qed.

Lemma degenerate_guard f h :
  degenerate f h -> positive_fit f && Qltb 0 h = false.
Proof.
  intros Hd. apply not_true_is_false.
  intros [[Hw Hh]%positive_fit_iff Hb%Qltb_lt]%andb_true_iff.
  destruct Hd as [Hd|[Hd|Hd]]; lra.
Qed.

Section op_classes.

(** A property of operations that every [drawChild], [translate], [scale]
    and [rotate] has: the child paths and the transform sequence have it. *)
Variable P : CanvasOp -> bool.
Hypothesis P_child : forall c k, P (drawChild c k) = true.
Hypothesis P_translate : forall c a b, P (translate c a b) = true.
Hypothesis P_scale : forall c a b, P (scale c a b) = true.
Hypothesis P_rotate : forall c a, P (rotate c a) = true.

Lemma forallb_paths c n m : forallb P (map (drawChild c) (seq n m)) = true.
Proof.
  revert n. induction m as [|m IH]; intros n; [done|].
  simpl. by rewrite P_child, IH.
Qed.

Lemma forallb_transform_ops c s f : forallb P (transform_ops c s f) = true.
Proof.
  unfold transform_ops. simpl. rewrite P_translate. simpl.
  destruct s as [st|]; [|done]. destruct (positive_fit f); [|done].
  unfold flip_rotate_ops. rewrite !forallb_app.
  destruct (horizontalFlip st), (verticalFlip st), (rotation st); simpl;
    by rewrite ?P_translate, ?P_scale, ?P_rotate.
Qed.

End op_classes.

Lemma region_draw_degenerate that clip img :
  CompoundPath._fillImage that = Some img ->
  degenerate (fitted (RegionShape that clip) img)
             (Rectangle.height (CompoundPath.bounds that)) ->
  forallb no_texture (CompoundPath._draw that clip) = true.
Proof.
  intros Hi Hd. apply degenerate_guard in Hd.
  unfold fitted in Hd. simpl in Hd.
  unfold CompoundPath._draw. rewrite Hi.
  destruct (CompoundPath.children that) as [|n] eqn:En; [done|].
  cbn [forallb]. rewrite !forallb_app, forallb_paths by done.
  destruct (negb clip && negb _) eqn:E1.
  { rewrite bool_decide_true in E1 by eauto. by destruct clip. }
  cbn [forallb andb].
  destruct (CompoundPath.too_small _); [done|].
  rewrite !forallb_app, forallb_paths, forallb_transform_ops by done.
  rewrite Hd. unfold CompoundPath.myTest.
  by destruct (hasFill _), (hasStroke _).
Qed.

Lemma region_draw_sized that clip :
  forallb sized_positive (CompoundPath._draw that clip) = true.
Proof.
  unfold CompoundPath._draw.
  destruct (CompoundPath.children that) as [|n] eqn:En; [done|].
  cbn [forallb sized_positive andb]. rewrite !forallb_app, forallb_paths by done.
  assert (Hflat : forall b : bool,
    forallb sized_positive
      (if b then setStyles Main ::
         (if hasFill (CompoundPath._style that)
          then [fill Main; shadowColor Main TransparentShadow] else []) ++
         (if hasStroke (CompoundPath._style that) then [stroke Main] else [])
       else []) = true).
  { intros []; [|done]. by destruct (hasFill _), (hasStroke _). }
  rewrite Hflat. cbn [andb].
  destruct (CompoundPath._fillImage that) as [img|]; [|done].
  destruct (CompoundPath.too_small _) eqn:Hc; [done|].
  apply orb_false_iff in Hc as [Hw Hh].
  pose proof (Math_max_lower (Rectangle.width (CompoundPath.bounds that) / 50)).
  apply round_check_width in Hw; [|lra]. apply round_check_height in Hh; [|lra].
  rewrite !forallb_app, forallb_paths, forallb_transform_ops by done.
  cbn [forallb sized_positive andb].
  assert (Hs : Qltb 0 (Rectangle.width (CompoundPath.bounds that) + 100) &&
               Qltb 0 (Rectangle.height (CompoundPath.bounds that) + 100) = true).
  { apply andb_true_iff. split; apply Qltb_lt; lra. }
  rewrite Hs. unfold CompoundPath.myTest.
  by destruct (hasFill _), (hasStroke _), (positive_fit _ && _).
Qed.

(** With a texture set and a box of no height, a region paints nothing. *)
Lemma region_draw_flat that clip img :
  CompoundPath._fillImage that = Some img ->
  Rectangle.height (CompoundPath.bounds that) <= 0 ->
  forallb no_paint (CompoundPath._draw that clip) = true.
Proof.
  intros Hi Hh. unfold CompoundPath._draw. rewrite Hi.
  destruct (CompoundPath.children that) as [|n] eqn:En; [done|].
  cbn [forallb]. rewrite !forallb_app, forallb_paths by done.
  rewrite bool_decide_true, andb_false_r by eauto.
  pose proof (Math_max_lower (Rectangle.width (CompoundPath.bounds that) / 50)).
  assert (Hc : CompoundPath.too_small (CompoundPath.bounds that) = true).
  { apply orb_true_iff. right. apply Qle_bool_iff, Math_round_nonpos. nra. }
  by rewrite Hc.
Qed.

Lemma Math_scaling_lower w : 5 <= Math_ceil (Math_max 5 (w / 50)).
Proof. apply Math_ceil_lower, Math_max_lower. Qed.

Lemma forallb_draw_lines P that host lines :
  (forall i line, forallb P (PointText.draw_line that host i line) = true) ->
  forall i, forallb P (PointText.draw_lines that host i lines) = true.
Proof.
  intros H. induction lines as [|line rest IH]; intros i; [done|].
  change (PointText.draw_lines that host i (line :: rest)) with
    (PointText.draw_line that host i line ++
     PointText.draw_lines that host (S i) rest).
  by rewrite forallb_app, H, IH.
Qed.

Lemma forallb_draw P that host :
  P (setStyles Main) = true -> P (font Main) = true -> P (textAlign Main) = true ->
  (forall i line, forallb P (PointText.draw_line that host i line) = true) ->
  forallb P (PointText._draw that host) = true.
Proof.
  intros H1 H2 H3 H. unfold PointText._draw.
  destruct (String.eqb _ _); [done|].
  cbn [app forallb]. by rewrite H1, H2, H3, forallb_draw_lines.
Qed.

Lemma line_draw_degenerate that host img i line :
  PointText._fillImage that = Some img ->
  degenerate (fitted (LineShape that host) img)
             (Rectangle.height (PointText._getBounds that host true)) ->
  forallb no_texture (PointText.draw_line that host i line) = true.
Proof.
  intros Hi Hd. apply degenerate_guard in Hd.
  unfold fitted in Hd. cbn [box adapter_fit] in Hd.
  unfold PointText.draw_line. rewrite Hi. cbn [forallb no_texture].
  destruct (Qle_bool _ 0 || Qle_bool _ 0); [done|].
  rewrite !forallb_app, forallb_transform_ops by done.
  unfold PointText.draw_texture. rewrite Hd.
  by destruct (hasFill _).
Qed.

Lemma line_draw_sized that host i line :
  forallb sized_positive (PointText.draw_line that host i line) = true.
Proof.
  unfold PointText.draw_line. cbn [forallb sized_positive andb].
  destruct (PointText._fillImage that) as [img|].
  2:{ by destruct (hasFill _), (hasStroke _). }
  destruct (Qle_bool _ 0 || Qle_bool _ 0) eqn:Hc; [done|].
  apply orb_false_iff in Hc as [Hw Hh].
  rewrite !forallb_app, forallb_transform_ops by done.
  cbn [forallb sized_positive andb]. unfold Qltb. rewrite Hw, Hh.
  unfold PointText.draw_texture, DEBUG.
  destruct (hasFill _), (positive_fit _ && _);
    try destruct (justification _); done.
Qed.

(** With a texture set and a box of no height, a line paints nothing. *)
Lemma line_draw_flat that host img i line :
  PointText._fillImage that = Some img ->
  Rectangle.height (PointText._getBounds that host true) <= 0 ->
  forallb no_paint (PointText.draw_line that host i line) = true.
Proof.
  intros Hi Hh. unfold PointText.draw_line. rewrite Hi.
  pose proof (Math_scaling_lower
    (Rectangle.width (PointText._getBounds that host true))).
  assert (Hc : Qle_bool (Math_round
            (Rectangle.height (PointText._getBounds that host true) *
             Math_ceil (Math_max 5
               (Rectangle.width (PointText._getBounds that host true) / 50)) *
             (3 # 2))) 0 = true).
  { apply Qle_bool_iff, Math_round_nonpos. nra. }
  cbn zeta. rewrite Hc, orb_true_r. done.
Qed.

(** When the canvas-size check passes, a textured region blits its
    offscreen canvas, on which the flat fill and the stroke were made. *)
Lemma region_still_blits that clip img :
  CompoundPath._fillImage that = Some img ->
  CompoundPath.children that <> 0%nat ->
  CompoundPath.too_small (CompoundPath.bounds that) = false ->
  existsb paints_main (CompoundPath._draw that clip) = true /\
  (hasFill (CompoundPath._style that) = true ->
   In (fill (Off 0)) (CompoundPath._draw that clip)) /\
  (hasStroke (CompoundPath._style that) = true ->
   In (stroke (Off 0)) (CompoundPath._draw that clip)).
Proof.
  intros Hi Hn Hc. unfold CompoundPath._draw. rewrite Hi, Hc.
  destruct (CompoundPath.children that) as [|n]; [done|].
  split; [|split].
  - cbn [existsb paints_main orb]. rewrite !existsb_app.
    cbn [existsb paints_main]. by rewrite !orb_true_r.
  - intros ->. right. rewrite !in_app_iff. simpl. tauto.
  - intros ->. right. rewrite !in_app_iff. simpl. tauto.
Qed.

(** C9, as the code has it: when the fit is degenerate no [drawImage] of
    the texture bitmap is made and every offscreen canvas obtained has a
    positive size; the draw is a total function, nothing is raised.  When
    the box has no height the draw paints nothing on the target canvas, no
    flat fill and no stroke either.  A region whose canvas-size check
    passes still blits its offscreen canvas, filled and stroked as the
    style says. *)
Theorem degenerate_fit_skips_texture (d : Drawable) (img : Image) :
  fill_image d = Some img ->
  degenerate (fitted d img) (Rectangle.height (box d)) ->
  forallb no_texture (draw d) = true /\
  forallb sized_positive (draw d) = true /\
  (Rectangle.height (box d) <= 0 -> forallb no_paint (draw d) = true) /\
  match d with
  | RegionShape that clip =>
      non_empty d = true ->
      CompoundPath.too_small (CompoundPath.bounds that) = false ->
      existsb paints_main (draw d) = true /\
      (hasFill (CompoundPath._style that) = true -> In (fill (Off 0)) (draw d)) /\
      (hasStroke (CompoundPath._style that) = true -> In (stroke (Off 0)) (draw d))
  | LineShape _ _ => True
  end.
Proof.
  intros Hi Hd. destruct d as [that clip | that host]; simpl in *.
  - split; [by apply (region_draw_degenerate that clip img)|].
    split; [apply region_draw_sized|].
    split; [by apply (region_draw_flat that clip img)|].
    intros Hn Hc. apply (region_still_blits that clip img); [done| |done].
    intros Hz. by rewrite Hz in Hn.
  - split.
    { apply forallb_draw; try done. intros i line.
      by apply (line_draw_degenerate that host img). }
    split.
    { apply forallb_draw; try done. apply line_draw_sized. }
    split; [|done].
    intros Hh. apply forallb_draw; try done. intros i line.
    by apply (line_draw_flat that host img).
Qed.

Lemma degenerate_fit_skips_texture_witness :
  forallb no_texture (draw (LineShape (line_of (Some zero_scaling)) plain_host))
  = true.
Proof.
  destruct (degenerate_fit_skips_texture
              (LineShape (line_of (Some zero_scaling)) plain_host) wide_image)
    as (H & _).
  - reflexivity.
  - left. vm_compute. discriminate.
  - exact H.
Defined.

(** A filled and stroked region with a texture and a 100 x 0 box (a
    horizontal line): the draw only replays the child path on the target
    and returns at the canvas-size check. *)
Lemma flat_paint_refuted :
  draw (RegionShape (region_of (Rectangle.mk 0 0 100 0) None) false)
    = [beginPath Main; drawChild Main 0] /\
  ~ degenerate_keeps_flat_paint.
Proof.
  split; [reflexivity|]. intros H.
  destruct (H (RegionShape (region_of (Rectangle.mk 0 0 100 0) None) false)
              wide_image) as (_ & _ & Hp).
  - reflexivity.
  - reflexivity.
  - right. right. simpl. lra.
  - specialize (Hp eq_refl). vm_compute in Hp. discriminate.
Qed.

(** ** Offscreen canvases are not always given back *)

(** C8: offscreen canvases are not released on every path.  A line of
    text whose fit is degenerate (scaling 0) obtains its canvas and never
    releases it; a region never releases its canvas, not even on an
    ordinary textured draw; only the line that does draw its texture
    releases. *)
Theorem offscreen_canvas_leaks :
  leaked (draw (LineShape (line_of (Some zero_scaling)) plain_host)) = [0%nat] /\
  ~ releases_all (LineShape (line_of (Some zero_scaling)) plain_host) /\
  leaked (draw (RegionShape (region_of (Rectangle.mk 0 0 100 50) None) false))
    = [0%nat] /\
  ~ releases_all (RegionShape (region_of (Rectangle.mk 0 0 100 50) None) false) /\
  releases_all (LineShape (line_of None) plain_host).
Proof.
  unfold releases_all. repeat split; try (by vm_compute).
  all: vm_compute; discriminate.
Qed.

(** No path through the region draw releases its canvas. *)
Lemma region_never_releases that clip :
  forallb (fun op => negb (is_release op)) (CompoundPath._draw that clip) = true.
Proof.
  unfold CompoundPath._draw.
  destruct (CompoundPath.children that) as [|n] eqn:En; [done|].
  cbn [forallb is_release negb andb]. rewrite !forallb_app, forallb_paths by done.
  assert (Hflat : forall b : bool,
    forallb (fun op => negb (is_release op))
      (if b then setStyles Main ::
         (if hasFill (CompoundPath._style that)
          then [fill Main; shadowColor Main TransparentShadow] else []) ++
         (if hasStroke (CompoundPath._style that) then [stroke Main] else [])
       else []) = true).
  { intros []; [|done]. by destruct (hasFill _), (hasStroke _). }
  rewrite Hflat. cbn [andb].
  destruct (CompoundPath._fillImage that) as [img|]; [|done].
  destruct (CompoundPath.too_small _) eqn:Hc; [done|].
  rewrite !forallb_app, forallb_paths, forallb_transform_ops by done.
  unfold CompoundPath.myTest.
  by destruct (hasFill _), (hasStroke _), (positive_fit _ && _).
Qed.

(** ** The setters *)

Lemma emit_handlers view responds type e :
  handlers (emit view responds type e) = handlers e /\
  cache (emit view responds type e) = cache e.
Proof. unfold emit. by destruct (view && responds type). Qed.

(** On a text item that has nothing bound, [setTextureFill(null)] leaves
    [loaded] false and signals nothing. *)
Lemma falsy_url_refuted :
  (let r := request None image_a false (fresh_text, initial_env) in
   loaded r.1 = false /\ log r.2 = []) /\
  ~ falsy_url_settles_every_state.
Proof.
  split; [by split|]. intros H.
  destruct (H fresh_text initial_env None image_a false eq_refl) as (_ & Hl & _).
  discriminate Hl.
Qed.

(** C5, as the code has it: a call of the setter with a falsy url returns
    with no resource bound, starts no load and leaves the cache alone; if a
    resource was bound it is cleared, [loaded] becomes true and one style
    change is signalled; if none was bound, [loaded] keeps its value and
    nothing is signalled. *)
Theorem falsy_url_clears_bound (it : Texturable) (e : Env)
    (url : option string) (image0 : Image) (complete : bool) :
  truthy url = None ->
  let r := request url image0 complete (it, e) in
  bound r.1 = None /\
  loaded r.1 = match bound it with Some _ => true | None => loaded it end /\
  log r.2 = log e ++ match bound it with
                     | Some _ => [changed Change.STYLE]
                     | None => []
                     end /\
  handlers r.2 = handlers e /\
  cache r.2 = cache e.
Proof.
  intros Hu. destruct it as [that|that]; unfold request; simpl;
    unfold TextItem.setTextureFill, CompoundPath.setFillImage; rewrite Hu.
  - destruct (TextItem._textureFill that) eqn:E; simpl; rewrite ?E;
      by rewrite ?app_nil_r.
  - destruct (CompoundPath._fillImage that) eqn:E; simpl; rewrite ?E;
      by rewrite ?app_nil_r.
Qed.

Lemma falsy_url_clears_bound_witness :
  bound (request (Some EmptyString) image_a false
           (PathShape (region_of (Rectangle.mk 0 0 100 50) None), initial_env)).1
  = None.
Proof.
  apply (falsy_url_clears_bound
           (PathShape (region_of (Rectangle.mk 0 0 100 50) None)) initial_env
           (Some EmptyString) image_a false).
  reflexivity.
Defined.

(** The [load] listener binds the image of its closure, whatever the item
    has asked for since. *)
Lemma on_load_binds h now s : bound (on_load h now s).1 = Some (h_image h).
Proof. destruct s as [[that|that] e]; reflexivity. Qed.

Lemma on_load_handlers h now s : handlers (on_load h now s).2 = handlers s.2.
Proof.
  destruct s as [[that|that] e]; unfold on_load; simpl;
    by rewrite (proj1 (emit_handlers _ _ _ _)).
Qed.

(** A request that misses the cache registers a handler for its image. *)
Lemma request_miss u image0 complete it e :
  u <> EmptyString -> ImageCache._cache (cache e) !! u = None ->
  let r := request (Some u) image0 complete (it, e) in
  handlers r.2 = handlers e ++ [mkHandler u (with_src u image0)] /\
  cache r.2 = cache e /\
  bound r.1 = bound it.
Proof.
  intros Hu Hc.
  assert (Ht : truthy (Some u) = Some u) by by destruct u.
  destruct it as [that|that]; unfold request; cbn [fst snd];
    unfold TextItem.setTextureFill, CompoundPath.setFillImage; rewrite Ht;
    unfold ImageCache.get; cbn [cache]; rewrite Hc.
  - by destruct (TextItem._textureFill that), (cache e).
  - by destruct (CompoundPath._fillImage that), (cache e).
Qed.

(** a.png is requested, then b.png, on a fresh text item; b.png loads, then
    a.png: the item ends with the bitmap of a.png bound.  Had a.png loaded
    while b.png was pending, its bitmap would be bound as well. *)
Lemma stale_completion_refuted :
  (let s2 := run [Request (Some "a.png"%string) image_a false;
                  Request (Some "b.png"%string) image_b false]
                 (fresh_text, initial_env) in
   bound (run [Load 1 0%Z; Load 0 0%Z] s2).1 = Some (with_src "a.png" image_a) /\
   bound (run [Load 0 0%Z] s2).1 = Some (with_src "a.png" image_a)) /\
  ~ stale_completion_discarded.
Proof.
  split; [by split|]. intros H.
  destruct (H fresh_text "a.png"%string "b.png"%string image_a image_b
              false false 0%Z 0%Z) as [H1 _]; try done.
Qed.

(** C2, as the code has it: when A was requested, then B, both missing the
    cache, the [load] of A binds A's bitmap whenever it fires, there is no
    comparison with the URL the item asks for now: fired while B is
    pending it binds A's bitmap, fired after B's completion it replaces B's
    bitmap by A's. *)
Theorem stale_completion_binds (it : Texturable) (e : Env) (a b : string)
    (imgA imgB : Image) (ca cb : bool) (nowA nowB : Z) :
  a <> EmptyString -> b <> EmptyString ->
  ImageCache._cache (cache e) !! a = None ->
  ImageCache._cache (cache e) !! b = None ->
  let k := length (handlers e) in
  let s2 := run [Request (Some a) imgA ca; Request (Some b) imgB cb] (it, e) in
  bound (run [Load k nowA] s2).1 = Some (with_src a imgA) /\
  bound (run [Load (S k) nowB; Load k nowA] s2).1 = Some (with_src a imgA).
Proof.
  intros Ha Hb Hca Hcb k s2.
  destruct (request_miss a imgA ca it e Ha Hca) as (H1 & C1 & _).
  set (s1 := request (Some a) imgA ca (it, e)) in *.
  destruct (request_miss b imgB cb s1.1 s1.2 Hb) as (H2 & _ & _);
    [by rewrite C1|].
  assert (Hh : handlers s2.2 =
    handlers e ++ [mkHandler a (with_src a imgA); mkHandler b (with_src b imgB)]).
  { change s2 with (request (Some b) imgB cb s1).
    rewrite <- surjective_pairing in H2.
    rewrite H2, H1, <- app_assoc. done. }
  assert (Hk : handlers s2.2 !! k = Some (mkHandler a (with_src a imgA))).
  { rewrite Hh. subst k. by rewrite lookup_app_r, Nat.sub_diag by lia. }
  assert (Hk' : handlers s2.2 !! S k = Some (mkHandler b (with_src b imgB))).
  { rewrite Hh. subst k. rewrite lookup_app_r by lia.
    by replace (S (length (handlers e)) - length (handlers e))%nat with 1%nat by lia. }
  split.
  - simpl. rewrite Hk. apply on_load_binds.
  - simpl. rewrite Hk'. rewrite on_load_handlers, Hk. apply on_load_binds.
Qed.

Lemma stale_completion_binds_witness :
  bound (run [Load 1 0%Z; Load 0 0%Z]
           (run [Request (Some "a.png"%string) image_a false;
                 Request (Some "b.png"%string) image_b false]
                (fresh_text, initial_env))).1
  = Some (with_src "a.png" image_a).
Proof.
  apply (stale_completion_binds fresh_text initial_env "a.png" "b.png"
           image_a image_b false false 0%Z 0%Z); done.
Defined.

(** * More facts *)

(** ** The cache, continued *)

Section more_cache_facts.
Import ImageCache.
Local Close Scope Q_scope.

Lemma get_after_set (url : string) (img : Image) (now : Z) (c : t) :
  (get url (set url img now c)).1 = Some img /\
  has url (set url img now c) = true /\
  last (_order (get url (set url img now c)).2) = Some url.
Proof.
  assert (H : _cache (set url img now c) !! url = Some (mkEntry img now))
    by apply lookup_insert_eq.
  unfold get, has. rewrite H. simpl.
  split; [done|]. split; [done|].
  apply last_snoc.
Qed.

(** X1: a URL just set is in the cache, [get] returns the image that was
    set, and the read leaves the URL the most recently used. *)
Theorem set_then_get (url : string) (img : Image) (now : Z) (c : t) :
  (get url (set url img now c)).1 = Some img /\
  has url (set url img now c) = true /\
  last (_order (get url (set url img now c)).2) = Some url.
Proof. apply get_after_set. Qed.


Lemma evict_inv order cache :
  (length order <= _maxSize)%nat ->
  evict order cache =
  if (length order <? _maxSize)%nat then ([], mk cache order)
  else match order with
       | o :: rest => ([o], mk (delete o cache) rest)
       | [] => ([], mk cache [])
       end.
Proof.
  intros Hl. destruct (length order <? _maxSize)%nat eqn:E.
  - apply Nat.ltb_lt in E. by apply evict_short.
  - apply Nat.ltb_ge in E. destruct order as [|o rest]; [done|].
    apply evict_full. simpl in *. unfold _maxSize in *. lia.
Qed.

(** X2: a call of [set] on a cache reached from the empty one evicts at most
    one URL, the oldest, and only when [_order] is full. *)
Theorem set_evicts_oldest_only (ops : list CacheOp) :
  evicted (run_ops ops) =
  if (length (_order (run_ops ops)) <? 10)%nat then []
  else take 1 (_order (run_ops ops)).
Proof.
  destruct (cache_inv_run ops) as [_ Hl]. unfold evicted.
  rewrite evict_inv by done. unfold _maxSize.
  destruct (length (_order (run_ops ops)) <? 10)%nat; [done|].
  by destruct (_order (run_ops ops)).
Qed.

Lemma splice_indexOf_filter l url :
  filter (fun v => v <> url)
    (match indexOf l url with Some i => splice1 l i | None => l end) =
  filter (fun v => v <> url) l.
Proof.
  induction l as [|x l IH]; [done|].
  rewrite splice_indexOf_cons.
  destruct (String.eqb_spec x url) as [->|Hne].
  - by rewrite filter_cons_False by (intros H; by apply H).
  - by rewrite !filter_cons_True, IH by done.
Qed.

(** X3: on a cache reached from the empty one, [get] of a resident URL
    returns its image, leaves the map alone, and moves the URL to the
    recent end of [_order] without disturbing the order of the others. *)
Theorem get_hit_refreshes (ops : list CacheOp) (url : string) (e : Entry) :
  _cache (run_ops ops) !! url = Some e ->
  (get url (run_ops ops)).1 = Some (image e) /\
  _cache (get url (run_ops ops)).2 = _cache (run_ops ops) /\
  last (_order (get url (run_ops ops)).2) = Some url /\
  length (_order (get url (run_ops ops)).2) = length (_order (run_ops ops)) /\
  filter (fun v => v <> url) (_order (get url (run_ops ops)).2) =
  filter (fun v => v <> url) (_order (run_ops ops)).
Proof.
  intros He. destruct (cache_inv_run ops) as [Hk _].
  assert (Hin : url ∈ _order (run_ops ops)) by (apply Hk; rewrite He; eauto).
  unfold get. rewrite He. simpl.
  split; [done|]. split; [done|]. split; [apply last_snoc|]. split.
  - rewrite length_app. simpl.
    pose proof (splice_indexOf_length _ _ Hin). lia.
  - rewrite filter_app, splice_indexOf_filter.
    rewrite filter_cons_False by (intros H; by apply H).
    by rewrite filter_nil, app_nil_r.
Qed.

Lemma get_hit_refreshes_witness :
  last (_order (get "a.png" (run_ops [opSet "a.png" wide_image 0;
                                      opSet "b.png" wide_image 1])).2)
  = Some "a.png"%string.
Proof.
  destruct (get_hit_refreshes [opSet "a.png" wide_image 0;
                               opSet "b.png" wide_image 1]
              "a.png" (mkEntry wide_image 0)) as (_ & _ & H & _).
  - reflexivity.
  - exact H.
Defined.

Lemma evict_order order cache :
  _order (evict order cache).2 = drop (length order - 9) order.
Proof.
  revert cache. induction order as [|o rest IH]; intros cache; [done|].
  rewrite evict_cons.
  destruct (_maxSize <=? length (o :: rest))%nat eqn:E.
  - apply Nat.leb_le in E. unfold _maxSize in E. cbn [length] in *.
    cbn [snd]. rewrite IH.
    by replace (S (length rest) - 9)%nat with (S (length rest - 9)) by lia.
  - apply Nat.leb_gt in E. unfold _maxSize in E. cbn [length] in *.
    by replace (S (length rest) - 9)%nat with 0%nat by lia.
Qed.

Lemma evict_keeps_lookup order cache u :
  NoDup order -> u ∈ _order (evict order cache).2 ->
  _cache (evict order cache).2 !! u = cache !! u.
Proof.
  revert cache. induction order as [|o rest IH]; intros cache Hnd Hu; [done|].
  rewrite evict_cons in *. apply NoDup_cons in Hnd as [Ho Hnd].
  destruct (_maxSize <=? length (o :: rest))%nat; [|done].
  simpl in *. rewrite IH by done.
  apply lookup_delete_ne. intros ->. apply Ho.
  rewrite evict_order in Hu. by apply (elem_of_sublist _ _ _ Hu), sublist_drop.
Qed.

(** X4: when [_order] and the map agree, a URL that was just read is still
    resident after the next [set], whichever URL is set. *)
Theorem recently_read_survives (c : t) (u v : string) (img : Image) (now : Z) :
  cache_wf c -> is_Some (_cache c !! u) ->
  has u (set v img now (get u c).2) = true.
Proof.
  intros Hwf [e He].
  destruct (decide (v = u)) as [->|Hne]; [apply get_after_set|].
  destruct (get_resident u e c Hwf He) as (_ & Hc & Ho & [Hnd Hk]).
  unfold has, set. simpl. apply bool_decide_eq_true.
  rewrite lookup_insert_ne by done.
  rewrite evict_keeps_lookup, Hc, He; [eauto | done |].
  rewrite evict_order, Ho.
  set (l := match indexOf (_order c) u with
            | Some i => splice1 (_order c) i | None => _order c end).
  rewrite length_app. cbn [length].
  rewrite drop_app_le by lia.
  apply elem_of_app. right. by apply list_elem_of_singleton.
Qed.

Lemma recently_read_survives_witness :
  has "a.png" (set "b.png" wide_image 1
                 (get "a.png" (set "a.png" wide_image 0 empty)).2) = true.
Proof.
  apply recently_read_survives.
  - destruct (set_fresh_short "a.png" wide_image 0 empty) as (_ & _ & Hwf);
      [apply cache_wf_empty | apply not_elem_of_nil | simpl; unfold _maxSize; lia |].
    exact Hwf.
  - exists (mkEntry wide_image 0). reflexivity.
Defined.

(** X5: [set] of a URL that is already resident, below capacity, replaces
    its image without adding an entry, yet lengthens [_order] by a second
    occurrence of the URL. *)
Theorem set_again_duplicates (c : t) (u : string) (img : Image) (now : Z) :
  cache_wf c -> is_Some (_cache c !! u) -> (length (_order c) < 10)%nat ->
  size (set u img now c) = size c /\
  (get u (set u img now c)).1 = Some img /\
  _order (set u img now c) = _order c ++ [u] /\
  ~ NoDup (_order (set u img now c)).
Proof.
  intros [Hnd Hk] Hu Hl. assert (Hin : u ∈ _order c) by by apply Hk.
  unfold set at 1 3 4. rewrite evict_short by done. unfold size. simpl.
  split.
  { destruct Hu as [e He]. by rewrite map_size_insert_Some. }
  split; [apply get_after_set|]. split; [done|].
  intros [_ [Hd _]]%NoDup_app. apply (Hd u Hin). by apply list_elem_of_singleton.
Qed.

Lemma set_again_duplicates_witness :
  size (set "a.png" image_a 1 (set "a.png" wide_image 0 empty)) =
  size (set "a.png" wide_image 0 empty).
Proof.
  destruct (set_again_duplicates (set "a.png" wide_image 0 empty)
              "a.png" image_a 1) as (H & _).
  - destruct (set_fresh_short "a.png" wide_image 0 empty) as (_ & _ & Hwf);
      [apply cache_wf_empty | apply not_elem_of_nil | simpl; unfold _maxSize; lia |].
    exact Hwf.
  - exists (mkEntry wide_image 0). reflexivity.
  - simpl. lia.
  - exact H.
Defined.
End more_cache_facts.

(** ** The setters and their listeners, continued *)

Lemma truthy_Some u : u <> EmptyString -> truthy (Some u) = Some u.
Proof. by destruct u. Qed.

Lemma truthy_inv url u : truthy url = Some u -> url = Some u /\ u <> EmptyString.
Proof. destruct url as [[|a s]|]; simpl; intros H; by simplify_eq. Qed.

Lemma emit_log view responds type e :
  log (emit view responds type e) =
  log e ++ (if view && responds type then [emitted type] else []).
Proof. unfold emit. destruct (view && responds type); [done|]. by rewrite app_nil_r. Qed.

Lemma emit_cache view responds type e :
  cache (emit view responds type e) = cache e.
Proof. apply emit_handlers. Qed.

Lemma emit_registered view responds type e :
  handlers (emit view responds type e) = handlers e.
Proof. apply emit_handlers. Qed.

Ltac emit_fields :=
  rewrite ?emit_log, ?emit_cache, ?emit_registered; unfold emission; cbn;
  rewrite <- ?app_assoc.

(** The three ways through a setter. *)
Lemma request_falsy url image0 complete it e :
  truthy url = None ->
  let r := request url image0 complete (it, e) in
  bound r.1 = None /\
  cache r.2 = cache e /\ handlers r.2 = handlers e /\
  log r.2 = log e ++ match bound it with
                     | Some _ => [changed Change.STYLE] | None => [] end /\
  attached r.1 = attached it /\ responding r.1 = responding it /\
  reported_url r.1 = match it with TextShape _ => url | PathShape _ => None end /\
  is_text r.1 = is_text it.
Proof.
  intros Hu. destruct it as [that|that]; unfold request; cbn [fst snd];
    unfold TextItem.setTextureFill, CompoundPath.setFillImage; rewrite Hu.
  - destruct (TextItem._textureFill that) eqn:E; simpl; rewrite ?E, ?app_nil_r; done.
  - destruct (CompoundPath._fillImage that) eqn:E; simpl; unfold getFillImage;
      simpl; rewrite ?E, ?app_nil_r; done.
Qed.

Lemma request_hit u entry image0 complete it e :
  u <> EmptyString -> ImageCache._cache (cache e) !! u = Some entry ->
  let r := request (Some u) image0 complete (it, e) in
  bound r.1 = Some (ImageCache.image entry) /\ loaded r.1 = true /\
  cache r.2 = (ImageCache.get u (cache e)).2 /\ handlers r.2 = handlers e /\
  log r.2 = log e ++ changed Change.STYLE :: emission it load_type /\
  attached r.1 = attached it /\ responding r.1 = responding it /\
  reported_url r.1 = match it with
                     | TextShape _ => Some u
                     | PathShape _ => Some (img_src (ImageCache.image entry))
                     end /\
  is_text r.1 = is_text it.
Proof.
  intros Hu Hc. apply truthy_Some in Hu.
  destruct it as [that|that]; unfold request; cbn [fst snd];
    unfold TextItem.setTextureFill, CompoundPath.setFillImage; rewrite Hu;
    unfold ImageCache.get; rewrite Hc; cbn -[emit].
  - destruct (TextItem._textureFill that); cbn -[emit]; by emit_fields.
  - destruct (CompoundPath._fillImage that); cbn -[emit]; by emit_fields.
Qed.

Lemma request_miss_full u image0 complete it e :
  u <> EmptyString -> ImageCache._cache (cache e) !! u = None ->
  let r := request (Some u) image0 complete (it, e) in
  bound r.1 = bound it /\ loaded r.1 = complete /\
  cache r.2 = cache e /\
  handlers r.2 = handlers e ++ [mkHandler u (with_src u image0)] /\
  log r.2 = log e ++ [requested u; changed Change.STYLE] /\
  attached r.1 = attached it /\ responding r.1 = responding it /\
  reported_url r.1 = match it with
                     | TextShape _ => Some u
                     | PathShape _ => reported_url it
                     end /\
  is_text r.1 = is_text it.
Proof.
  intros Hu Hc. apply truthy_Some in Hu.
  destruct it as [that|that]; unfold request; cbn [fst snd];
    unfold TextItem.setTextureFill, CompoundPath.setFillImage; rewrite Hu;
    unfold ImageCache.get; rewrite Hc; cbn.
  - destruct (TextItem._textureFill that), (cache e); cbn;
      by rewrite <- app_assoc.
  - destruct (CompoundPath._fillImage that), (cache e); cbn;
      by rewrite <- app_assoc.
Qed.

Lemma on_load_full h now it e :
  let r := on_load h now (it, e) in
  bound r.1 = Some (h_image h) /\ loaded r.1 = true /\
  cache r.2 = ImageCache.set (h_url h) (h_image h) now (cache e) /\
  handlers r.2 = handlers e /\
  log r.2 = log e ++ changed Change.STYLE :: emission it load_type /\
  attached r.1 = attached it /\ responding r.1 = responding it /\
  reported_url r.1 = match it with
                     | TextShape _ => reported_url it
                     | PathShape _ => Some (img_src (h_image h))
                     end /\
  is_text r.1 = is_text it.
Proof.
  destruct it as [that|that]; unfold on_load; cbn [fst snd];
    unfold TextItem.on_load, CompoundPath.on_load; cbn -[emit];
    by emit_fields.
Qed.

Lemma on_error_full h it e :
  let r := on_error h (it, e) in
  r.1 = it /\ cache r.2 = cache e /\ handlers r.2 = handlers e /\
  log r.2 = log e ++ emission it error_type.
Proof.
  destruct it as [that|that]; unfold on_error; cbn [fst snd];
    unfold TextItem.on_error, CompoundPath.on_error; cbn -[emit];
    by emit_fields.
Qed.

(** X6: a request for a URL that is in the cache binds the cached bitmap
    within the call: [loaded] is true, no image is created and no listener
    registered, the map of the cache is unchanged, and the log gains the
    style change and, if the item is attached and listens, one "load". *)
Theorem cache_hit_binds_at_once (it : Texturable) (e : Env) (u : string)
    (entry : ImageCache.Entry) (image0 : Image) (complete : bool) :
  u <> EmptyString -> ImageCache._cache (cache e) !! u = Some entry ->
  let r := request (Some u) image0 complete (it, e) in
  bound r.1 = Some (ImageCache.image entry) /\ loaded r.1 = true /\
  handlers r.2 = handlers e /\
  ImageCache._cache (cache r.2) = ImageCache._cache (cache e) /\
  log r.2 = log e ++ changed Change.STYLE :: emission it load_type.
Proof.
  intros Hu Hc r.
  destruct (request_hit u entry image0 complete it e Hu Hc)
    as (Hb & Hl & Hca & Hh & Hlog & _).
  fold r in Hb, Hl, Hca, Hh, Hlog.
  repeat split; try done.
  rewrite Hca. unfold ImageCache.get. by rewrite Hc.
Qed.

(** X7: a request that misses the cache leaves the previous bitmap bound
    until the load completes, sets [loaded] to [image.complete], starts one
    load and registers one listener for it. *)
Theorem cache_miss_keeps_previous (it : Texturable) (e : Env) (u : string)
    (image0 : Image) (complete : bool) :
  u <> EmptyString -> ImageCache._cache (cache e) !! u = None ->
  let r := request (Some u) image0 complete (it, e) in
  bound r.1 = bound it /\ loaded r.1 = complete /\
  cache r.2 = cache e /\
  handlers r.2 = handlers e ++ [mkHandler u (with_src u image0)] /\
  log r.2 = log e ++ [requested u; changed Change.STYLE].
Proof.
  intros Hu Hc r.
  destruct (request_miss_full u image0 complete it e Hu Hc)
    as (Hb & Hl & Hca & Hh & Hlog & _).
  done.
Qed.

(** X8: once the load of a URL has completed on one item, a request for the
    same URL on any item that shares the cache binds the very same bitmap
    at once, without a new load. *)
Theorem loaded_url_is_shared (h : Handler) (now : Z) (it it' : Texturable)
    (e : Env) (image0 : Image) (complete : bool) :
  h_url h <> EmptyString ->
  let s1 := on_load h now (it, e) in
  let r := request (Some (h_url h)) image0 complete (it', s1.2) in
  bound r.1 = Some (h_image h) /\ loaded r.1 = true /\
  handlers r.2 = handlers e /\
  filter is_requested (log r.2) = filter is_requested (log e).
Proof.
  intros Hu s1 r.
  destruct (on_load_full h now it e) as (_ & _ & Hca & Hh & Hlog & _).
  fold s1 in Hca, Hh, Hlog.
  assert (Hc : ImageCache._cache (cache s1.2) !! h_url h
               = Some (ImageCache.mkEntry (h_image h) now)).
  { rewrite Hca. apply lookup_insert_eq. }
  destruct (request_hit (h_url h) _ image0 complete it' s1.2 Hu Hc)
    as (Hb & Hl & _ & Hh' & Hlog' & _).
  fold r in Hb, Hl, Hh', Hlog'.
  split; [done|]. split; [done|]. split; [by rewrite Hh', Hh|].
  rewrite Hlog', Hlog, !filter_app. unfold emission.
  by destruct (attached it && _), (attached it' && _); cbn; rewrite ?app_nil_r.
Qed.

Lemma run_app evs1 evs2 s : run (evs1 ++ evs2) s = run evs2 (run evs1 s).
Proof. unfold run. apply fold_left_app. Qed.

(** X9: error events change neither the item (what is bound, [loaded]) nor
    the cache nor the listeners; each adds at most one "error" to the log. *)
Theorem errors_change_nothing (evs : list Event) (s : Texturable * Env) :
  forallb is_error evs = true ->
  (run evs s).1 = s.1 /\ cache (run evs s).2 = cache s.2 /\
  handlers (run evs s).2 = handlers s.2 /\
  exists n, (n <= length evs)%nat /\
            log (run evs s).2 = log s.2 ++ replicate n (emitted error_type).
Proof.
  revert s. induction evs as [|ev evs IH]; intros s Hev.
  - repeat split; try done. exists 0%nat. split; [done|]. by rewrite app_nil_r.
  - simpl in Hev. apply andb_true_iff in Hev as [He Hev].
    destruct ev as [| |k]; try done.
    change (run (Error k :: evs) s) with (run evs (step s (Error k))).
    destruct (IH (step s (Error k)) Hev) as (I1 & I2 & I3 & n & Hn & I4).
    rewrite I1, I2, I3, I4. simpl.
    destruct (handlers s.2 !! k) as [h|].
    + destruct s as [it e].
      destruct (on_error_full h it e) as (E1 & E2 & E3 & E4).
      rewrite E1, E2, E3, E4. repeat split; try done.
      unfold emission. destruct (attached it && _).
      * exists (S n). split; [simpl; lia|]. by rewrite <- app_assoc.
      * exists n. split; [simpl; lia|]. by rewrite app_nil_r.
    + repeat split; try done. exists n. split; [simpl; lia | done].
Qed.

Lemma errors_change_nothing_witness :
  (run [Error 0; Error 3] (fresh_text, initial_env)).1 = fresh_text.
Proof.
  apply (errors_change_nothing [Error 0; Error 3] (fresh_text, initial_env)).
  reflexivity.
Defined.

(** Every step is one of the five cases above, or does nothing. *)
Lemma step_cases it e ev :
  (exists url i0 c, ev = Request url i0 c /\ truthy url = None) \/
  (exists u en i0 c, ev = Request (Some u) i0 c /\ u <> EmptyString /\
                     ImageCache._cache (cache e) !! u = Some en) \/
  (exists u i0 c, ev = Request (Some u) i0 c /\ u <> EmptyString /\
                  ImageCache._cache (cache e) !! u = None) \/
  (exists k now h, ev = Load k now /\ h ∈ handlers e /\
                   step (it, e) ev = on_load h now (it, e)) \/
  (exists k h, ev = Error k /\ step (it, e) ev = on_error h (it, e)) \/
  ((forall url i0 c, ev <> Request url i0 c) /\ step (it, e) ev = (it, e)).
Proof.
  destruct ev as [url i0 c|k now|k].
  - destruct (truthy url) as [u|] eqn:Hu; [|left; eauto].
    apply truthy_inv in Hu as [-> Hu]. right.
    destruct (ImageCache._cache (cache e) !! u) as [en|] eqn:Hc.
    + left. by exists u, en, i0, c.
    + right. left. by exists u, i0, c.
  - simpl. destruct (handlers e !! k) as [h|] eqn:Hk; [|by repeat right].
    do 3 right. left. exists k, now, h. split; [done|]. split; [|done].
    by apply list_elem_of_lookup_2 in Hk.
  - simpl. destruct (handlers e !! k) as [h|] eqn:Hk; [|by repeat right].
    do 4 right. left. by exists k, h.
Qed.

(** X10: an item that is not attached to a view never emits: whatever is
    requested and whatever loads or fails, its log gains no event. *)
Theorem detached_item_is_silent (evs : list Event) (it : Texturable) (e : Env) :
  attached it = false ->
  filter is_emitted (log (run evs (it, e)).2) = filter is_emitted (log e).
Proof.
  revert it e. induction evs as [|ev evs IH]; intros it e Ha; [done|].
  change (run (ev :: evs) (it, e)) with (run evs (step (it, e) ev)).
  assert (Hs : attached (step (it, e) ev).1 = false /\
               filter is_emitted (log (step (it, e) ev).2)
               = filter is_emitted (log e)).
  { assert (Hem : forall ty, emission it ty = [])
      by (intros ty; unfold emission; by rewrite Ha).
    destruct (step_cases it e ev)
      as [(url & i0 & c & -> & Hu)
         |[(u & en & i0 & c & -> & Hu & Hc)
          |[(u & i0 & c & -> & Hu & Hc)
           |[(k & now & h & -> & Hh & ->)
            |[(k & h & -> & ->)| [_ ->]]]]]].
    - destruct (request_falsy url i0 c it e Hu) as (_ & _ & _ & Hl & Hat & _).
      simpl. rewrite Hat, Hl, filter_app. split; [done|].
      destruct (bound it); cbn; by rewrite app_nil_r.
    - destruct (request_hit u en i0 c it e Hu Hc) as (_ & _ & _ & _ & Hl & Hat & _).
      simpl. rewrite Hat, Hl, Hem, filter_app. split; [done|].
      cbn. by rewrite app_nil_r.
    - destruct (request_miss_full u i0 c it e Hu Hc)
        as (_ & _ & _ & _ & Hl & Hat & _).
      simpl. rewrite Hat, Hl, filter_app. split; [done|].
      cbn. by rewrite app_nil_r.
    - destruct (on_load_full h now it e) as (_ & _ & _ & _ & Hl & Hat & _).
      rewrite Hat, Hl, Hem, filter_app. split; [done|].
      cbn. by rewrite app_nil_r.
    - destruct (on_error_full h it e) as (-> & _ & _ & Hl).
      rewrite Hl, Hem, app_nil_r. done.
    - done. }
  destruct Hs as [Ha' Hl'].
  destruct (step (it, e) ev) as [it' e']. simpl in *.
  by rewrite IH.
Qed.

(** X11: the getter of a text item answers the URL of the last call of the
    setter, truthy or not, bound or not: loads and errors do not change it. *)
Theorem text_reports_last_request (evs : list Event) (that : TextItem.t)
    (e : Env) :
  reported_url (run evs (TextShape that, e)).1 =
  last_requested evs (getTextureFill that).
Proof.
  change (getTextureFill that) with (reported_url (TextShape that)).
  assert (Ht : is_text (TextShape that) = true) by done.
  revert Ht. generalize (TextShape that) as it. clear that.
  intros it. revert it e.
  induction evs as [|ev evs IH]; intros it e Ht; [done|].
  change (run (ev :: evs) (it, e)) with (run evs (step (it, e) ev)).
  change (last_requested (ev :: evs) (reported_url it)) with
    (last_requested evs
       (match ev with Request u _ _ => u | _ => reported_url it end)).
  assert (Hs : is_text (step (it, e) ev).1 = true /\
               reported_url (step (it, e) ev).1 =
               match ev with Request u _ _ => u | _ => reported_url it end).
  { destruct it as [that|that]; [clear Ht | done].
    destruct (step_cases (TextShape that) e ev)
      as [(url & i0 & c & -> & Hu)
         |[(u & en & i0 & c & -> & Hu & Hc)
          |[(u & i0 & c & -> & Hu & Hc)
           |[(k & now & h & -> & Hh & ->)
            |[(k & h & -> & ->)| [Hne Hid]]]]]].
    - by destruct (request_falsy url i0 c (TextShape that) e Hu)
        as (_ & _ & _ & _ & _ & _ & Hr & Ht).
    - by destruct (request_hit u en i0 c (TextShape that) e Hu Hc)
        as (_ & _ & _ & _ & _ & _ & _ & Hr & Ht).
    - by destruct (request_miss_full u i0 c (TextShape that) e Hu Hc)
        as (_ & _ & _ & _ & _ & _ & _ & Hr & Ht).
    - by destruct (on_load_full h now (TextShape that) e)
        as (_ & _ & _ & _ & _ & _ & _ & Hr & Ht).
    - by destruct (on_error_full h (TextShape that) e) as (-> & _).
    - rewrite Hid. split; [done|]. destruct ev as [url i0 c| |]; try done.
      by destruct (Hne url i0 c). }
  destruct Hs as [Ht' Hr].
  destruct (step (it, e) ev) as [it' e']. simpl in *.
  rewrite <- Hr. by apply IH.
Qed.






Lemma cache_hit_binds_at_once_witness :
  bound (request (Some "a.png"%string) image_b false
           (fresh_text,
            mkEnv (ImageCache.set "a.png" wide_image 0 ImageCache.empty) [] [])).1
  = Some wide_image.
Proof.
  apply (cache_hit_binds_at_once fresh_text
           (mkEnv (ImageCache.set "a.png" wide_image 0 ImageCache.empty) [] [])
           "a.png" (ImageCache.mkEntry wide_image 0) image_b false);
    [done | reflexivity].
Defined.

Lemma cache_miss_keeps_previous_witness :
  bound (request (Some "a.png"%string) image_a false (fresh_text, initial_env)).1
  = bound fresh_text.
Proof.
  apply (cache_miss_keeps_previous fresh_text initial_env "a.png" image_a false);
    [done | reflexivity].
Defined.

Lemma loaded_url_is_shared_witness :
  bound (request (Some "a.png"%string) image_b false
           (fresh_text,
            (on_load (mkHandler "a.png" wide_image) 0
               (PathShape (region_of (Rectangle.mk 0 0 100 50) None),
                initial_env)).2)).1
  = Some wide_image.
Proof.
  apply (loaded_url_is_shared (mkHandler "a.png" wide_image) 0
           (PathShape (region_of (Rectangle.mk 0 0 100 50) None)) fresh_text
           initial_env image_b false).
  done.
Defined.

Lemma detached_item_is_silent_witness :
  filter is_emitted
    (log (run [Request (Some "a.png"%string) image_a false; Load 0 0%Z]
              (TextShape (TextItem.initialize false (fun _ => true)),
               initial_env)).2) = [].
Proof.
  apply (detached_item_is_silent
           [Request (Some "a.png"%string) image_a false; Load 0 0%Z]
           (TextShape (TextItem.initialize false (fun _ => true))) initial_env).
  reflexivity.
Defined.

(** ** The content of a text item *)

Lemma split_lines_cons s : exists line lines, split_lines s = line :: lines.
Proof.
  induction s as [|a s (line & lines & IH)]; [by eexists _, _|].
  simpl. destruct (Ascii.eqb a CR).
  - destruct s as [|b s']; [by eexists _, _|].
    destruct (Ascii.eqb b LF); by eexists _, _.
  - destruct (Ascii.eqb a LF); [by eexists _, _|].
    rewrite IH. by eexists _, _.
Qed.

Lemma split_lines_step a s :
  is_break a = false ->
  split_lines (String a s) =
  match split_lines s with
  | line :: lines => String a line :: lines
  | [] => [String a EmptyString]
  end.
Proof.
  unfold is_break. intros [Hc Hl]%orb_false_iff. simpl. by rewrite Hc, Hl.
Qed.

(** X13: [setContent] always yields at least one line, and no line holds a
    carriage return or a line feed. *)
Theorem split_lines_unbroken (s : string) :
  split_lines s <> [] /\ forallb unbroken (split_lines s) = true.
Proof.
  split.
  { destruct (split_lines_cons s) as (line & lines & ->). done. }
  assert (H : forall n s, (String.length s < n)%nat ->
                          forallb unbroken (split_lines s) = true);
    [|apply (H (S (String.length s))); lia].
  clear s. induction n as [|n IHn]; intros s Hn; [lia|].
  assert (IH : forall t, (String.length t < String.length s)%nat ->
                         forallb unbroken (split_lines t) = true)
    by (intros t Ht; apply IHn; lia).
  clear IHn Hn.
  destruct s as [|a s]; [done|].
  destruct (is_break a) eqn:Ha.
  - assert (Hrest : forallb unbroken (split_lines s) = true)
      by (apply IH; simpl; lia).
    unfold is_break in Ha. simpl. destruct (Ascii.eqb a CR).
    + destruct s as [|b s']; [done|].
      destruct (Ascii.eqb b LF); [|done].
      simpl. apply IH. simpl. lia.
    + simpl in Ha. by rewrite Ha.
  - rewrite split_lines_step by done.
    assert (Hrest : forallb unbroken (split_lines s) = true)
      by (apply IH; simpl; lia).
    destruct (split_lines s) as [|line lines]; simpl in *; [by rewrite Ha|].
    by rewrite Ha.
Qed.

Lemma split_lines_single x : unbroken x = true -> split_lines x = [x].
Proof.
  induction x as [|a x IH]; [done|]. simpl unbroken.
  intros [Ha Hx]%andb_true_iff. apply negb_true_iff in Ha.
  by rewrite split_lines_step, IH.
Qed.

Lemma split_lines_line x rest :
  unbroken x = true ->
  split_lines (x ++ String LF rest) = x :: split_lines rest.
Proof.
  induction x as [|a x IH]; [done|]. simpl unbroken.
  intros [Ha Hx]%andb_true_iff. apply negb_true_iff in Ha.
  change (String a x ++ String LF rest)%string
    with (String a (x ++ String LF rest)).
  by rewrite split_lines_step, IH.
Qed.

(** X14: lines that hold no line break, joined by line feeds and set as the
    content, come back as the same lines. *)
Theorem split_join_lines (lines : list string) :
  lines <> [] -> forallb unbroken lines = true ->
  split_lines (join_lines lines) = lines.
Proof.
  intros Hne Hl. induction lines as [|x lines IH]; [done|].
  simpl in Hl. apply andb_true_iff in Hl as [Hx Hl].
  destruct lines as [|y lines].
  - by apply split_lines_single.
  - change (join_lines (x :: y :: lines))
      with (x ++ String LF (join_lines (y :: lines)))%string.
    rewrite split_lines_line by done. by rewrite IH.
Qed.

Lemma split_join_lines_witness :
  split_lines (join_lines ["Hello"; EmptyString; "world"]%string)
  = ["Hello"; EmptyString; "world"]%string.
Proof. apply split_join_lines; [done | reflexivity]. Defined.

(** X15: a content whose only line breaks are line feeds is recovered by
    joining its lines with line feeds. *)
Theorem join_split_lines (s : string) :
  lf_only s = true -> join_lines (split_lines s) = s.
Proof.
  induction s as [|a s IH]; [done|]. simpl lf_only.
  intros [Ha Hs]%andb_true_iff. apply negb_true_iff in Ha.
  specialize (IH Hs). simpl. rewrite Ha.
  destruct (split_lines_cons s) as (line & lines & Hsp).
  rewrite Hsp in *.
  destruct (Ascii.eqb_spec a LF) as [->|Hne].
  - change (join_lines (EmptyString :: line :: lines))
      with (String LF (join_lines (line :: lines))). by rewrite IH.
  - rewrite <- IH. by destruct lines.
Qed.

Lemma join_split_lines_witness :
  join_lines (split_lines ("one" ++ String LF "two")%string)
  = ("one" ++ String LF "two")%string.
Proof. apply join_split_lines. reflexivity. Defined.

(** ** The bounds of a point text *)

(** X16: for a text of non-negative width the anchor (x = 0) lies within the
    horizontal extent of the bounds in every justification: at the left
    edge, at the centre or at the right edge. *)
Theorem bounds_hold_anchor (that : PointText.t) (host : PointText.Host)
    (actualText : bool) :
  0 <= (if actualText then PointText.getActualTextWidth host
        else PointText.getTextWidth host) ->
  let b := PointText._getBounds that host actualText in
  Rectangle.x b <= 0 /\ 0 <= Rectangle.x b + Rectangle.width b /\
  match justification (PointText._style that) with
  | JLeft => Rectangle.x b == 0
  | JCenter => Rectangle.x b + Rectangle.width b / 2 == 0
  | JRight => Rectangle.x b + Rectangle.width b == 0
  end.
Proof.
  intros Hw. unfold PointText._getBounds. simpl.
  set (w := if actualText then _ else _) in *. clearbody w.
  assert (H1 : w / 1 == w) by field.
  assert (H2 : w / 2 == w * (1 # 2)) by field.
  destruct (justification _); repeat split; rewrite ?H1, ?H2; lra.
Qed.

Lemma bounds_hold_anchor_witness :
  Rectangle.x (PointText._getBounds (line_of None) plain_host true) <= 0.
Proof.
  apply (bounds_hold_anchor (line_of None) plain_host true). simpl. lra.
Defined.

(** X17: after [setContent] the bounds are never the empty rectangle of a
    text without lines: their top is 3/4 of the leading above the baseline
    and their height the number of lines times the leading, so with a
    positive leading the baseline of the first line lies inside them. *)
Theorem content_bounds (content : string) (that : PointText.t)
    (host : PointText.Host) (actualText : bool) :
  0 < leading (PointText._style that) ->
  let b := PointText._getBounds (PointText_setContent content that)
             host actualText in
  let l := leading (PointText._style that) in
  Rectangle.y b == - (3 # 4) * l /\
  Rectangle.height b
    == inject_Z (Z.of_nat (length (split_lines content))) * l /\
  Rectangle.y b < 0 /\ 0 < Rectangle.y b + Rectangle.height b.
Proof.
  intros Hl. unfold PointText._getBounds, PointText_setContent. simpl.
  destruct (split_lines_cons content) as (line & lines & ->). simpl length.
  split; [reflexivity|]. split; [reflexivity|].
  assert (Hn : 1 <= inject_Z (Z.of_nat (S (length lines)))).
  { change 1 with (inject_Z 1). rewrite <- Zle_Qle. lia. }
  split; nra.
Qed.

Lemma content_bounds_witness :
  Rectangle.y (PointText._getBounds
                 (PointText_setContent "A" (line_of None)) plain_host true) < 0.
Proof.
  destruct (content_bounds "A" (line_of None) plain_host true)
    as (_ & _ & H & _); [reflexivity | exact H].
Defined.

(** ** Empty content *)

Lemma split_lines_one s : split_lines s = [EmptyString] -> s = EmptyString.
Proof.
  destruct s as [|a s]; [done|]. simpl.
  destruct (split_lines_cons s) as (line & lines & Hs).
  destruct (Ascii.eqb a CR).
  - destruct s as [|b s']; [done|].
    destruct (Ascii.eqb b LF); [|by rewrite Hs].
    by destruct (split_lines_cons s') as (l' & ls' & ->).
  - destruct (Ascii.eqb a LF); by rewrite Hs.
Qed.

(** X18: after [setContent] the item always has at least one line, and it is
    empty ([isEmpty]) exactly when its lines are the one empty line;
    the empty list of lines that [initialize] leaves is never restored. *)
Theorem set_content_lines (content : string) (s : TextItemContent.t * Env) :
  let that := (TextItemContent.setContent content s).1 in
  TextItemContent._lines that <> [] /\
  (TextItemContent.isEmpty that = true <->
   TextItemContent._lines that = [EmptyString]).
Proof.
  cbn. split.
  - by destruct (split_lines_cons content) as (line & lines & ->).
  - unfold TextItemContent.isEmpty. cbn. rewrite String.eqb_eq. split.
    + by intros ->.
    + apply split_lines_one.
Qed.

(** ** The draws, continued *)

Lemma forallb_children (P : CanvasOp -> bool) c n m :
  (forall k, P (drawChild c k) = true) ->
  forallb P (map (drawChild c) (seq n m)) = true.
Proof.
  intros HP. revert n. induction m as [|m IH]; intros n; [done|].
  simpl. by rewrite HP, IH.
Qed.

(** X19: without a texture neither draw goes near [CanvasProvider] or an
    offscreen canvas. *)
Theorem untextured_draw_stays_on_target (d : Drawable) :
  fill_image d = None -> forallb offscreen_free (draw d) = true.
Proof.
  intros Hi. destruct d as [that clip|that host]; cbn [draw fill_image] in *.
  - unfold CompoundPath._draw. rewrite Hi.
    destruct (CompoundPath.children that) as [|n]; [done|].
    cbn [forallb offscreen_free canvas_used target_of andb].
    rewrite !forallb_app, forallb_children by done.
    destruct (negb clip && _); [|done].
    by destruct (hasFill _), (hasStroke _).
  - apply forallb_draw; try done. intros i line.
    unfold PointText.draw_line. rewrite Hi.
    by destruct (hasFill _), (hasStroke _).
Qed.

Lemma untextured_draw_stays_on_target_witness :
  forallb offscreen_free
    (draw (LineShape (PointText.mk "A" ["A"%string] (mkStyle true true 12 JLeft)
                        None None) plain_host)) = true.
Proof. apply untextured_draw_stays_on_target. reflexivity. Defined.

Lemma filled_on_app c a b : filled_on c (a ++ b) = filled_on c a ++ filled_on c b.
Proof.
  induction a as [|op a IH]; [done|]. destruct op; simpl; try done.
  destruct (same_target c c0); simpl; by rewrite IH.
Qed.

(** X20: a text without texture fills each of its lines once on the target,
    in order, when the style has a fill, and none otherwise. *)
Theorem plain_text_fills_each_line (that : PointText.t) (host : PointText.Host) :
  PointText._fillImage that = None ->
  PointText._content that <> EmptyString ->
  filled_on Main (PointText._draw that host) =
  if hasFill (PointText._style that) then PointText._lines that else [].
Proof.
  intros Hi Hc. unfold PointText._draw.
  apply String.eqb_neq in Hc. rewrite Hc. cbn [app filled_on].
  generalize 0%nat as i.
  induction (PointText._lines that) as [|line lines IH]; intros i.
  - by destruct (hasFill _).
  - change (PointText.draw_lines that host i (line :: lines)) with
      (PointText.draw_line that host i line ++
       PointText.draw_lines that host (S i) lines).
    rewrite filled_on_app, IH. unfold PointText.draw_line. rewrite Hi.
    by destruct (hasFill _), (hasStroke _).
Qed.

Lemma plain_text_fills_each_line_witness :
  filled_on Main
    (PointText._draw (PointText.mk "A" ["A"%string] (mkStyle true true 12 JLeft)
                        None None) plain_host) = ["A"%string].
Proof. apply plain_text_fills_each_line; [reflexivity | done]. Defined.

(** X21: with a texture set, [PointText._draw] never strokes a line, whatever
    the style, and never draws text on the target itself: the lines are
    filled on offscreen canvases only. *)
Theorem textured_text_never_strokes (that : PointText.t) (host : PointText.Host)
    (img : Image) :
  PointText._fillImage that = Some img ->
  forallb not_stroke_text (PointText._draw that host) = true /\
  forallb not_main_text (PointText._draw that host) = true.
Proof.
  intros Hi. split; apply forallb_draw; try done; intros i line;
    unfold PointText.draw_line; rewrite Hi;
    cbn [forallb not_stroke_text not_main_text is_stroke_text is_main_text negb andb];
    (destruct (Qle_bool _ 0 || Qle_bool _ 0); [done|]);
    rewrite !forallb_app, forallb_transform_ops by done;
    unfold PointText.draw_texture, DEBUG;
    destruct (hasFill _), (positive_fit _ && _);
    try destruct (justification _); done.
Qed.

Lemma textured_text_never_strokes_witness :
  forallb not_stroke_text
    (PointText._draw (PointText.mk "A" ["A"%string] (mkStyle true true 12 JLeft)
                        (Some wide_image) None) plain_host) = true.
Proof.
  apply (textured_text_never_strokes _ plain_host wide_image). reflexivity.
Defined.

Lemma forallb_transform_ops_on (P : CanvasOp -> bool) c s f :
  (forall a b, P (translate c a b) = true) ->
  (forall a b, P (scale c a b) = true) ->
  (forall a, P (rotate c a) = true) ->
  forallb P (transform_ops c s f) = true.
Proof.
  intros Ht Hs Hr. unfold transform_ops. cbn [forallb]. rewrite Ht. simpl.
  destruct s as [st|]; [|done]. destruct (positive_fit f); [|done].
  unfold flip_rotate_ops. rewrite !forallb_app.
  destruct (horizontalFlip st), (verticalFlip st), (rotation st); simpl;
    by rewrite ?Ht, ?Hs, ?Hr.
Qed.

Lemma well_scoped_within live a b :
  forallb (within live) a = true ->
  well_scoped live (a ++ b) = well_scoped live b.
Proof.
  induction a as [|op a IH]; [done|]. simpl.
  intros [Hop Ha]%andb_true_iff. specialize (IH Ha).
  destruct op; simpl in *; try done; by rewrite ?Hop, ?IH.
Qed.

Lemma held_head i live : held i (i :: live) = true.
Proof. unfold held. simpl. by rewrite Nat.eqb_refl. Qed.

Lemma held_tail i j live : held i live = true -> held i (j :: live) = true.
Proof. unfold held. simpl. intros ->. apply orb_true_r. Qed.

Lemma filter_not_held i live :
  held i live = false -> filter (fun j => j <> i) (i :: live) = live.
Proof.
  intros Hh. rewrite filter_cons_False by (intros H; by apply H).
  induction live as [|j live IH]; [done|].
  unfold held in Hh. simpl in Hh. apply orb_false_iff in Hh as [Hj Hh].
  apply Nat.eqb_neq in Hj. rewrite filter_cons_True by congruence.
  by rewrite IH.
Qed.

Lemma region_scoped that clip : well_scoped [] (CompoundPath._draw that clip) = true.
Proof.
  unfold CompoundPath._draw.
  destruct (CompoundPath.children that) as [|n]; [done|].
  set (flat := if negb clip && _ then _ else _).
  assert (Hflat : forallb (within []) flat = true).
  { subst flat. destruct (negb clip && _); [|done].
    by destruct (hasFill _), (hasStroke _). }
  rewrite app_assoc, app_comm_cons, well_scoped_within.
  2:{ cbn [forallb within canvas_used target_of andb].
      by rewrite forallb_app, forallb_children, Hflat. }
  destruct (CompoundPath._fillImage that) as [img|]; [|done].
  destruct (CompoundPath.too_small _); [done|].
  cbn [app well_scoped held existsb negb andb].
  rewrite <- (app_nil_r (_ ++ _)), well_scoped_within; [done|].
  unfold CompoundPath.myTest. cbn [forallb app within canvas_used target_of].
  rewrite held_head. cbn [andb].
  repeat (rewrite ?forallb_app; cbn [forallb]).
  rewrite forallb_children, forallb_transform_ops_on;
    try (intros; reflexivity).
  by destruct (hasFill _), (hasStroke _), (positive_fit _ && _).
Qed.

Lemma within_transform_ops i live s f :
  forallb (within (i :: live)) (transform_ops (Off i) s f) = true.
Proof.
  apply forallb_transform_ops_on; intros;
    cbn [within canvas_used target_of]; apply held_head.
Qed.

Lemma line_scoped that host i line live rest :
  held i live = false ->
  well_scoped live rest = true -> well_scoped (i :: live) rest = true ->
  well_scoped live (PointText.draw_line that host i line ++ rest) = true.
Proof.
  intros Hi Hrest Hrest'. unfold PointText.draw_line, PointText.draw_texture, DEBUG.
  destruct (PointText._fillImage that) as [img|].
  2:{ destruct (hasFill _), (hasStroke _); cbn; done. }
  destruct (Qle_bool _ 0 || Qle_bool _ 0); [by cbn|].
  repeat (cbn [app]; rewrite <- ?app_assoc).
  cbn [app well_scoped canvas_used target_of andb]. rewrite Hi, !held_head.
  cbn [negb andb].
  assert (Hfill : forall tail,
    well_scoped (i :: live) tail = true ->
    well_scoped (i :: live)
      ((if hasFill (PointText._style that) then [fillText (Off i) line] else [])
       ++ tail) = true).
  { intros tail Ht. destruct (hasFill _); [|done].
    cbn [app well_scoped canvas_used target_of]. by rewrite held_head. }
  apply Hfill. cbn [app well_scoped canvas_used target_of andb].
  rewrite !held_head. cbn [andb].
  rewrite well_scoped_within by apply within_transform_ops.
  destruct (positive_fit _ && _).
  - repeat (cbn [app]; rewrite <- ?app_assoc).
    destruct (justification _);
      cbn [app well_scoped canvas_used target_of andb];
      rewrite !held_head; cbn [andb];
      by rewrite filter_not_held.
  - by cbn.
Qed.

Lemma lines_scoped that host lines :
  forall i live,
    (forall j, held j live = true -> (j < i)%nat) ->
    well_scoped live (PointText.draw_lines that host i lines) = true.
Proof.
  induction lines as [|line lines IH]; intros i live Hlive; [done|].
  change (PointText.draw_lines that host i (line :: lines)) with
    (PointText.draw_line that host i line ++
     PointText.draw_lines that host (S i) lines).
  apply line_scoped.
  - apply not_true_is_false. intros H%Hlive. lia.
  - apply IH. intros j Hj%Hlive. lia.
  - apply IH. intros j Hj. unfold held in Hj. simpl in Hj.
    apply orb_true_iff in Hj as [Hj%Nat.eqb_eq|Hj]; [lia|].
    apply Hlive in Hj. lia.
Qed.

(** X22: every draw keeps the discipline of [CanvasProvider]: a canvas is
    obtained before it is drawn on or blitted, never obtained twice, never
    released unless held, and never touched after its release. *)
Theorem canvases_well_scoped (d : Drawable) : well_scoped [] (draw d) = true.
Proof.
  destruct d as [that clip|that host]; cbn [draw].
  - apply region_scoped.
  - unfold PointText._draw. destruct (String.eqb _ _); [done|].
    cbn [app well_scoped canvas_used target_of andb].
    apply lines_scoped. intros j Hj. done.
Qed.

(** ** Where the transforms put the texture *)

Lemma same_target_refl c : same_target c c = true.
Proof. destruct c; [done|]. apply Nat.eqb_refl. Qed.

Lemma place_app trig c a b p :
  place trig c (a ++ b) p = place trig c a (place trig c b p).
Proof. unfold place. apply fold_right_app. Qed.

Lemma transform_ops_centre (trig : Q -> Q * Q) (c : Target)
    (s : option Settings) (f : Fit) :
  same_point
    (place trig c (transform_ops c s f) (widthImage f / 2, heightImage f / 2))
    (leftImage f + widthImage f / 2, topImage f + heightImage f / 2).
Proof.
  unfold transform_ops, same_point.
  change (place trig c (?op :: ?l) ?p) with (op_map trig c op (place trig c l p)).
  cbn [op_map]. rewrite same_target_refl. cbn [fst snd].
  assert (H : same_point
    (place trig c match s with
                  | Some st => if positive_fit f then flip_rotate_ops c st f else []
                  | None => []
                  end (widthImage f / 2, heightImage f / 2))
    (widthImage f / 2, heightImage f / 2)).
  { destruct s as [st|]; [|by split].
    destruct (positive_fit f); [|by split].
    unfold flip_rotate_ops, place. 
    destruct (horizontalFlip st), (verticalFlip st), (rotation st) as [rot|];
      cbn [app fold_right op_map]; rewrite ?same_target_refl;
      try destruct (trig _) as [co si]; split; cbn [fst snd]; field. }
  destruct H as [H1 H2]. cbn [fst snd] in H1, H2.
  split; [rewrite H1 | rewrite H2]; ring.
Qed.




(** ** How far a text draw moves the target context *)

Lemma place_plain_line trig that host i line p :
  PointText._fillImage that = None ->
  place trig Main (PointText.draw_line that host i line) p =
  (p.1 + 0, p.2 + leading (PointText._style that)).
Proof.
  intros Hi. unfold PointText.draw_line. rewrite Hi.
  by destruct (hasFill _), (hasStroke _).
Qed.

Lemma inject_succ n : inject_Z (Z.of_nat (S n)) == inject_Z (Z.of_nat n) + 1.
Proof. by rewrite Nat2Z.inj_succ, <- Z.add_1_r, inject_Z_plus. Qed.

Lemma place_lines trig that host lines L :
  (forall i line p,
     same_point (place trig Main (PointText.draw_line that host i line) p)
                (p.1, p.2 + L)) ->
  forall i p,
    same_point (place trig Main (PointText.draw_lines that host i lines) p)
               (moved (length lines) 0 L p).
Proof.
  intros Hline. induction lines as [|line lines IH]; intros i p.
  - unfold moved, same_point. cbn. split; ring.
  - change (PointText.draw_lines that host i (line :: lines)) with
      (PointText.draw_line that host i line ++
       PointText.draw_lines that host (S i) lines).
    rewrite place_app.
    destruct (Hline i line (place trig Main
               (PointText.draw_lines that host (S i) lines) p)) as [H1 H2].
    destruct (IH (S i) p) as [I1 I2].
    unfold same_point, moved in *. cbn [fst snd length] in *.
    rewrite H1, H2, I1, I2, inject_succ. split; ring.
Qed.

(** X25: a text without texture leaves the target context moved down by one
    leading per line, and not sideways. *)
Theorem plain_text_advance (trig : Q -> Q * Q) (that : PointText.t)
    (host : PointText.Host) (p : Q * Q) :
  PointText._fillImage that = None ->
  same_point (place trig Main (PointText._draw that host) p)
    (if String.eqb (PointText._content that) EmptyString then p
     else moved (length (PointText._lines that)) 0
            (leading (PointText._style that)) p).
Proof.
  intros Hi. unfold PointText._draw.
  destruct (String.eqb _ _); [by split|].
  rewrite place_app. apply place_lines. intros i line q.
  rewrite place_plain_line by done. split; cbn [fst snd]; ring.
Qed.

Lemma plain_text_advance_witness :
  same_point
    (place (fun _ => (1, 0)) Main
       (PointText._draw (PointText.mk "A" ["A"%string]
                           (mkStyle true true 12 JLeft) None None) plain_host)
       (0, 0))
    (moved 1 0 12 (0, 0)).
Proof.
  apply (plain_text_advance (fun _ => (1, 0))
           (PointText.mk "A" ["A"%string] (mkStyle true true 12 JLeft) None None)
           plain_host (0, 0)).
  reflexivity.
Defined.

Lemma place_transform_ops_off trig i s f q :
  place trig Main (transform_ops (Off i) s f) q = q.
Proof.
  unfold transform_ops, flip_rotate_ops, place.
  destruct s as [st|]; [|done]. destruct (positive_fit f); [|done].
  by destruct (horizontalFlip st), (verticalFlip st), (rotation st).
Qed.

(** One textured line whose size test passes. *)
Lemma place_textured_line trig that host img i line p :
  PointText._fillImage that = Some img ->
  line_too_small (PointText._getBounds that host true) = false ->
  same_point
    (place trig Main (PointText.draw_line that host i line) p)
    (p.1 - (if positive_fit (fitted (LineShape that host) img) &&
               Qltb 0 (Rectangle.height (PointText._getBounds that host true))
            then match justification (PointText._style that) with
                 | JCenter => m_width (PointText.measureText host line) / 2
                 | _ => 0
                 end
            else 0),
     p.2 + leading (PointText._style that)).
Proof.
  intros Hi Hs. unfold PointText.draw_line. rewrite Hi.
  change (Qle_bool _ 0 || Qle_bool _ 0)
    with (line_too_small (PointText._getBounds that host true)).
  rewrite Hs. unfold fitted. cbn [box adapter_fit].
  set (b := PointText._getBounds that host true).
  set (f := PointText.fit _ _ _ _).
  set (s := Math_ceil (Math_max 5 (Rectangle.width b / 50))).
  assert (Hs5 : 5 <= s) by apply Math_scaling_lower.
  change (shadowColor Main SavedShadow :: ?l) with ([shadowColor Main SavedShadow] ++ l).
  rewrite !place_app, place_transform_ops_off.
  unfold PointText.draw_texture, DEBUG. 
  destruct (positive_fit f && Qltb 0 (Rectangle.height b)).
  - destruct (hasFill _), (justification _);
      cbn [place fold_right op_map same_target fst snd app];
      split; cbn [fst snd]; field; lra.
  - destruct (hasFill _);
      cbn [place fold_right op_map same_target fst snd app];
      split; cbn [fst snd]; ring.
Qed.

Lemma place_textured_small trig that host img i line p :
  PointText._fillImage that = Some img ->
  line_too_small (PointText._getBounds that host true) = true ->
  place trig Main (PointText.draw_line that host i line) p = p.
Proof.
  intros Hi Hs. unfold PointText.draw_line. rewrite Hi.
  change (Qle_bool _ 0 || Qle_bool _ 0)
    with (line_too_small (PointText._getBounds that host true)).
  by rewrite Hs.
Qed.

(** X26: a textured text that is not centred leaves the target context where
    the plain draw leaves it, one leading down per line; when the size
    test fails every line is skipped together with its advance and the
    context is left where it was. *)
Theorem textured_text_advance (trig : Q -> Q * Q) (that : PointText.t)
    (host : PointText.Host) (img : Image) (p : Q * Q) :
  PointText._fillImage that = Some img ->
  justification (PointText._style that) <> JCenter ->
  same_point (place trig Main (PointText._draw that host) p)
    (if String.eqb (PointText._content that) EmptyString
        || line_too_small (PointText._getBounds that host true)
     then p
     else moved (length (PointText._lines that)) 0
            (leading (PointText._style that)) p).
Proof.
  intros Hi Hj. unfold PointText._draw.
  destruct (String.eqb _ _); [by split|]. cbn [orb].
  rewrite place_app.
  change (place trig Main [setStyles Main; font Main; textAlign Main] p) with p.
  destruct (line_too_small _) eqn:Hs.
  - destruct (place_lines trig that host (PointText._lines that) 0) with
      (i := 0%nat) (p := p) as [H1 H2].
    + intros i line q. rewrite (place_textured_small _ _ _ img) by done.
      split; cbn [fst snd]; ring.
    + unfold moved in *. cbn [fst snd] in *. split; [rewrite H1|rewrite H2]; ring.
  - apply place_lines. intros i line q.
    destruct (place_textured_line trig that host img i line q Hi Hs) as [H1 H2].
    cbn [fst snd] in *. split; cbn [fst snd]; [rewrite H1|by rewrite H2].
    destruct (_ && _); [|ring]. destruct (justification _); try ring. done.
Qed.

Lemma textured_text_advance_witness :
  same_point
    (place (fun _ => (1, 0)) Main
       (PointText._draw (PointText.mk "A" ["A"%string]
                           (mkStyle true true 12 JLeft) (Some wide_image) None)
                        plain_host) (0, 0))
    (moved 1 0 12 (0, 0)).
Proof.
  apply (textured_text_advance (fun _ => (1, 0))
           (PointText.mk "A" ["A"%string] (mkStyle true true 12 JLeft)
              (Some wide_image) None) plain_host wide_image (0, 0));
    [reflexivity | discriminate].
Defined.

(** X27: a centred line whose texture is drawn moves the target context half
    the measured width of the line to the left, besides the leading: the
    translate by [-boundingBoxLeft] before the blit is not undone after
    it. *)
Theorem centred_line_drifts (trig : Q -> Q * Q) (that : PointText.t)
    (host : PointText.Host) (img : Image) (i : nat) (line : string) (p : Q * Q) :
  PointText._fillImage that = Some img ->
  justification (PointText._style that) = JCenter ->
  line_too_small (PointText._getBounds that host true) = false ->
  positive_fit (fitted (LineShape that host) img) = true ->
  0 < Rectangle.height (PointText._getBounds that host true) ->
  same_point
    (place trig Main (PointText.draw_line that host i line) p)
    (p.1 - m_width (PointText.measureText host line) / 2,
     p.2 + leading (PointText._style that)).
Proof.
  intros Hi Hj Hs Hp Hh.
  destruct (place_textured_line trig that host img i line p Hi Hs) as [H1 H2].
  rewrite Hp, Hj in H1. apply Qltb_lt in Hh. rewrite Hh in H1. by split.
Qed.

Lemma centred_line_drifts_witness :
  same_point
    (place (fun _ => (1, 0)) Main
       (PointText.draw_line
          (PointText.mk "A" ["A"%string] (mkStyle true true 12 JCenter)
             (Some wide_image) None) plain_host 0 "A") (0, 0))
    (0 - m_width (PointText.measureText plain_host "A") / 2, 0 + 12).
Proof.
  apply (centred_line_drifts (fun _ => (1, 0))
           (PointText.mk "A" ["A"%string] (mkStyle true true 12 JCenter)
              (Some wide_image) None) plain_host wide_image 0 "A" (0, 0));
    reflexivity.
Defined.

(** ** Where a region puts its texture *)

Lemma place_cons trig c op l q :
  place trig c (op :: l) q = op_map trig c op (place trig c l q).
Proof. done. Qed.

Lemma place_children trig c c' n m q :
  place trig c (map (drawChild c') (seq n m)) q = q.
Proof. revert n. induction m as [|m IH]; intros n; [done|]. apply IH. Qed.

Lemma before_texture_children c n m rest :
  before_texture (map (drawChild c) (seq n m) ++ rest) =
  map (drawChild c) (seq n m) ++ before_texture rest.
Proof.
  revert n. induction m as [|m IH]; intros n; [done|].
  cbn [seq map app before_texture]. by rewrite IH.
Qed.

Lemma before_children_other n m rest :
  before_children (Off 0) (map (drawChild Main) (seq n m) ++ rest) =
  map (drawChild Main) (seq n m) ++ before_children (Off 0) rest.
Proof.
  revert n. induction m as [|m IH]; intros n; [done|].
  cbn [seq map app before_children same_target]. by rewrite IH.
Qed.

Lemma before_texture_app a b :
  forallb no_texture a = true -> before_texture (a ++ b) = a ++ before_texture b.
Proof.
  induction a as [|op a IH]; [done|]. intros [Hop Ha]%andb_true_iff.
  cbn [app]. destruct op; try done; cbn [before_texture]; by rewrite IH.
Qed.

(** X28: on the offscreen canvas of a textured region the centre of the
    texture is drawn where the child paths have the point
    [center - box / 2 + offset + texture / 2]: the texture is anchored at
    the corner of the bounding box as computed from [bounds.center], moved
    by the offset of the fit, whatever the flips and the rotation. *)
Theorem region_texture_anchor (trig : Q -> Q * Q) (that : CompoundPath.t)
    (clip : bool) (img : Image) :
  CompoundPath._fillImage that = Some img ->
  CompoundPath.children that <> 0%nat ->
  CompoundPath.too_small (CompoundPath.bounds that) = false ->
  let f := fitted (RegionShape that clip) img in
  let b := CompoundPath.bounds that in
  same_point
    (place trig (Off 0) (before_texture (CompoundPath._draw that clip))
       (widthImage f / 2, heightImage f / 2))
    (place trig (Off 0) (before_children (Off 0) (CompoundPath._draw that clip))
       ((CompoundPath.center that).1 - Rectangle.width b / 2
          + leftImage f + widthImage f / 2,
        (CompoundPath.center that).2 - Rectangle.height b / 2
          + topImage f + heightImage f / 2)).
Proof.
  intros Hi Hc Hs f b. subst b. unfold fitted in f. cbn [box adapter_fit] in f.
  unfold CompoundPath._draw. rewrite Hi, Hs.
  destruct (CompoundPath.children that) as [|n] eqn:Hn; [done|].
  fold f. set (tr := transform_ops _ _ _).
  set (kids := map (drawChild (Off 0)) _).
  rewrite bool_decide_eq_true_2, andb_false_r by done.
  unfold CompoundPath.myTest. cbn [app].
  set (fillpart := if hasFill _ then _ else _).
  set (tail := (if positive_fit f && _ then _ else _) ++ _).
  assert (Htail : forall q, place trig (Off 0) (before_texture tail) q = q).
  { intros q. subst tail. by destruct (_ && _), (hasStroke _). }
  assert (Hfill : forallb no_texture fillpart = true).
  { subst fillpart. by destruct (hasFill _). }
  assert (Hfp : forall q, place trig (Off 0) fillpart q = q).
  { intros q. subst fillpart. by destruct (hasFill _). }
  cbn [before_texture before_children].
  rewrite before_texture_children, before_children_other.
  cbn [before_texture app].
  rewrite (before_texture_app kids) by (apply forallb_paths; done).
  rewrite (before_texture_app fillpart) by done.
  cbn [before_texture app].
  rewrite (before_texture_app tr) by (apply forallb_transform_ops; done).
  subst kids. cbn [seq map before_children same_target app].
  repeat (rewrite place_cons || rewrite place_app || rewrite place_children).
  rewrite Htail, Hfp.
  destruct (transform_ops_centre trig (Off 0)
              (CompoundPath._fillImageSettings that) f) as [H1 H2].
  fold tr in H1, H2. cbn [fst snd] in H1, H2.
  cbn [place fold_right op_map same_target Nat.eqb fst snd].
  split; cbn [fst snd]; [rewrite H1 | rewrite H2]; field.
Qed.

Lemma region_texture_anchor_witness :
  let that := region_of (Rectangle.mk 0 0 100 50) None in
  let f := fitted (RegionShape that false) wide_image in
  same_point
    (place (fun _ => (1, 0)) (Off 0)
       (before_texture (CompoundPath._draw that false))
       (widthImage f / 2, heightImage f / 2))
    (place (fun _ => (1, 0)) (Off 0)
       (before_children (Off 0) (CompoundPath._draw that false))
       ((CompoundPath.center that).1 - 100 / 2 + leftImage f + widthImage f / 2,
        (CompoundPath.center that).2 - 50 / 2 + topImage f + heightImage f / 2)).
Proof.
  apply (region_texture_anchor (fun _ => (1, 0))
           (region_of (Rectangle.mk 0 0 100 50) None) false wide_image);
    [reflexivity | discriminate | reflexivity].
Defined.
